(** * prep.c: recursive whole-word search, a shallow embedding

    The development follows [prep.c]: the C library routines the program
    relies on ([fgets], [strtok_r], [strcmp], [strcasecmp], [atoi]), the
    File Searcher [analyze_file], the Directory Walker [ls], the entry
    point [main], and a small interleaving machine for the semaphore that
    throttles the searcher threads. *)

From Equations Require Import Equations.
From Equations.Prop Require Import Logic.
From Stdlib Require Import List Ascii String ZArith Lia Bool Permutation.
From Stdlib Require DecimalString HexadecimalString DecimalPos.
Import ListNotations.

Set Warnings "-register-all".

Local Open Scope Z_scope.
Local Abbreviation length := Datatypes.length (only parsing).

(** A C string: the bytes before the terminating NUL. *)
Definition cstring := list ascii.

(** String literals of the source, as C strings. *)
Definition lit (s : string) : cstring := list_ascii_of_string s.
Arguments lit s%_string.

(** ** The C library, as far as [prep.c] uses it *)
Module Libc.

Definition NUL : ascii := Ascii.zero.
Definition newline : ascii := "010"%char.

(** The C string held by a byte buffer: everything before the first NUL.
    [strcpy], [strtok_r] and [printf "%s"] all stop there. *)
Fixpoint c_str (buf : list ascii) : cstring :=
  match buf with
  | [] => []
  | c :: r => if Ascii.eqb c NUL then [] else c :: c_str r
  end.

(** A [char] compared as [unsigned char], as [strcmp] does. *)
Definition uchar (c : ascii) : Z := Z.of_N (N_of_ascii c).

(** [strcmp]: the difference of the first two bytes that differ; the
    scan stops at a NUL, and the end of a string is its NUL. *)
Fixpoint strcmp (a b : cstring) : Z :=
  match a, b with
  | [], [] => 0
  | [], y :: _ => 0 - uchar y
  | x :: _, [] => uchar x - 0
  | x :: a', y :: b' =>
      if Ascii.eqb x y
      then if Ascii.eqb x NUL then 0 else strcmp a' b'
      else uchar x - uchar y
  end.

(** [tolower] in the "C" locale (the program never calls [setlocale]). *)
Definition tolower (c : ascii) : ascii :=
  let n := N_of_ascii c in
  if ((65 <=? n) && (n <=? 90))%N then ascii_of_N (n + 32) else c.

(** [strcasecmp]: the same scan on the lower-cased bytes. *)
Fixpoint strcasecmp (a b : cstring) : Z :=
  match a, b with
  | [], [] => 0
  | [], y :: _ => 0 - uchar (tolower y)
  | x :: _, [] => uchar (tolower x) - 0
  | x :: a', y :: b' =>
      if Ascii.eqb (tolower x) (tolower y)
      then if Ascii.eqb x NUL then 0 else strcasecmp a' b'
      else uchar (tolower x) - uchar (tolower y)
  end.

(** [strchr set c != NULL] for a non-NUL [c]. *)
Definition in_set (set : cstring) (c : ascii) : bool :=
  existsb (Ascii.eqb c) set.

(** [strspn s accept]: length of the longest prefix made of [accept]. *)
Fixpoint strspn (s accept : cstring) : nat :=
  match s with
  | [] => O
  | c :: r => if in_set accept c then S (strspn r accept) else O
  end.

(** [strcspn s reject]: length of the longest prefix free of [reject]. *)
Fixpoint strcspn (s reject : cstring) : nat :=
  match s with
  | [] => O
  | c :: r => if in_set reject c then O else S (strcspn r reject)
  end.

(** [strtok_r]: the argument is the string still to be scanned (the
    first call passes the line, the later ones [NULL] and so continue
    at the saved pointer).  Result: [None] for [NULL], or the token
    together with the new saved pointer.  As in glibc: skip
    [strspn s delim] bytes; at the end of the string return [NULL];
    the token runs for [strcspn s delim] bytes; if it reaches the end
    of the string the saved pointer is that end, otherwise the
    delimiter is overwritten with NUL and the saved pointer is the
    byte after it. *)
Definition strtok_r (s delim : cstring) : option (cstring * cstring) :=
  let s1 := skipn (strspn s delim) s in
  match s1 with
  | [] => None
  | _ :: _ =>
      let n := strcspn s1 delim in
      match skipn n s1 with
      | [] => Some (firstn n s1, [])
      | _ :: save => Some (firstn n s1, save)
      end
  end.

(** [fgets buf size stream]: reads at most [size - 1] bytes and stops
    after a newline.  The stream is the sequence of bytes the handle
    still delivers before end of file or a read error.  [None] is the
    [NULL] result (nothing could be read). *)
Fixpoint fgets_read (k : nat) (stream : list ascii)
  : list ascii * list ascii :=
  match k with
  | O => ([], stream)
  | S k' =>
      match stream with
      | [] => ([], [])
      | c :: r =>
          if Ascii.eqb c newline then ([c], r)
          else let '(b, r') := fgets_read k' r in (c :: b, r')
      end
  end.

Definition fgets (size : nat) (stream : list ascii)
  : option (list ascii * list ascii) :=
  match stream with
  | [] => None
  | _ :: _ => Some (fgets_read (size - 1) stream)
  end.

(** An [int] of the target: 32 bits, two's complement.  An increment
    that runs over (undefined in C) is taken to wrap around, as the
    target does. *)
Definition int_wrap (z : Z) : Z := (z + 2 ^ 31) mod 2 ^ 32 - 2 ^ 31.

(** [printf "%d"]. *)
Definition fmt_d (z : Z) : cstring :=
  lit (DecimalString.NilZero.string_of_int (Z.to_int z)).

(** A [char] widened to [int]; [char] is signed on the target. *)
Definition schar (c : ascii) : Z :=
  if uchar c <? 128 then uchar c else uchar c - 256.

(** [printf "%x"]: the digits of the argument taken as [unsigned]. *)
Definition fmt_x (n : N) : cstring :=
  lit (HexadecimalString.NilZero.string_of_uint (N.to_hex_uint n)).

(** [isspace] and [isprint] in the "C" locale. *)
Definition isspace (c : ascii) : bool :=
  let n := N_of_ascii c in
  ((n =? 32) || ((9 <=? n) && (n <=? 13)))%N.

Definition isprint (c : ascii) : bool :=
  let n := N_of_ascii c in ((32 <=? n) && (n <=? 126))%N.

Definition digit (c : ascii) : option Z :=
  let n := N_of_ascii c in
  if ((48 <=? n) && (n <=? 57))%N then Some (Z.of_N n - 48) else None.

Fixpoint skip_space (s : cstring) : cstring :=
  match s with
  | [] => []
  | c :: r => if isspace c then skip_space r else s
  end.

(** The value of the leading decimal digits, continuing from [acc]. *)
Fixpoint digits (s : cstring) (acc : Z) : Z :=
  match s with
  | [] => acc
  | c :: r =>
      match digit c with
      | Some d => digits r (10 * acc + d)
      | None => acc
      end
  end.

Definition LONG_MAX : Z := 2 ^ 63 - 1.
Definition LONG_MIN : Z := - 2 ^ 63.

(** [strtol s NULL 10]: white space, an optional sign, the leading
    digits; the value 0 when there is none; clamped to [long]. *)
Definition strtol (s : cstring) : Z :=
  let s1 := skip_space s in
  let v := match s1 with
           | "-"%char :: r => - digits r 0
           | "+"%char :: r => digits r 0
           | _ => digits s1 0
           end in
  Z.max LONG_MIN (Z.min LONG_MAX v).

(** [atoi], which glibc defines as [(int) strtol (s, NULL, 10)]. *)
Definition atoi (s : cstring) : Z := int_wrap (strtol s).

End Libc.
Import Libc.

(** ** Globals of [prep.c] *)

(** [delimit]: space, tab, CR, LF, then . , : ? ! ` ( ) [ ] - / and the
    single quote, the double quote, < and >. *)
Definition delimit : cstring :=
  [" "; "009"; "013"; "010"; "."; ","; ":"; "?"; "!"; "`"; "("; ")";
   "["; "]"; "-"; "/"; "'"; "034"; "<"; ">"]%char.

(** A [FILE *] opened for reading: what [readlink] answers for
    [/proc/self/fd/<fd>] when the searcher of the handle calls it ([None]
    when it fails) and the bytes the handle delivers.  The answer is part
    of the environment of one run: it depends on the moment of the call
    ([readlink] fails once the main thread has left through
    [pthread_exit]), so another run of the same search may meet another
    answer for the same file. *)
Record FILE := mkFILE { f_link : option cstring; f_stream : list ascii }.

(** [recover_filename]: the link target cut to the 255 bytes of the
    buffer, [None] for the [NULL] result.  (For a target of 255 bytes or
    more the code stores the terminator one byte past the buffer; the
    model keeps the 255 bytes.) *)
Definition recover_filename (f : FILE) : option cstring :=
  match f_link f with
  | None => None
  | Some target => Some (firstn 255 target)
  end.

(** [printf "%s"] of a possibly-[NULL] pointer (glibc prints [(null)]). *)
Definition fmt_s (p : option cstring) : cstring :=
  match p with
  | None => lit "(null)"
  | Some s => s
  end.

(** What the program does, in program order. *)
Inductive event :=
| Stdout (s : cstring)            (* printf *)
| Stderr (s : cstring)            (* fprintf(stderr, ..) *)
| Perror                          (* perror(NULL), on stderr *)
| SemInit (value : Z)
| Opendir (path : cstring)
| Closedir (path : cstring)
| Stat (path : cstring)
| Fopen (path : cstring)
| SemWait
| PthreadCreate (f : FILE)        (* pthread_create(.., analyze_file, f) *)
| SemPost
| Fclose.

(** ** Termination measures of the two [while] loops *)

Lemma strtok_r_save_shorter (s delim w save : cstring) :
  strtok_r s delim = Some (w, save) -> (length save < length s)%nat.
Proof.
  unfold strtok_r.
  pose proof (length_skipn (strspn s delim) s) as Hk.
  destruct (skipn (strspn s delim) s) as [|c s1] eqn:E1; [discriminate|].
  pose proof (length_skipn (strcspn (c :: s1) delim) (c :: s1)) as Hn.
  cbv zeta.
  destruct (skipn (strcspn (c :: s1) delim) (c :: s1)) as [|d r] eqn:E2;
    intros [= _ <-]; cbn [Datatypes.length] in *; lia.
Qed.

Lemma fgets_read_rest_shorter (k : nat) (stream : list ascii) :
  (length (snd (fgets_read k stream)) <= length stream)%nat.
Proof.
  revert stream; induction k as [|k IH]; intros [|c r]; simpl; try lia.
  destruct (Ascii.eqb c newline); simpl; [lia|].
  specialize (IH r). destruct (fgets_read k r); simpl in *; lia.
Qed.

Lemma fgets_rest_shorter (size : nat) (stream buf rest : list ascii) :
  (2 <= size)%nat ->
  fgets size stream = Some (buf, rest) -> (length rest < length stream)%nat.
Proof.
  intros Hsz. destruct stream as [|c r]; [discriminate|].
  unfold fgets. destruct (size - 1)%nat as [|k] eqn:Ek; [lia|].
  cbn [fgets_read].
  destruct (Ascii.eqb c newline).
  - intros [= _ <-]; simpl; lia.
  - pose proof (fgets_read_rest_shorter k r) as H.
    destruct (fgets_read k r); intros [= _ <-]; simpl in *; lia.
Qed.

(** ** The File Searcher: [analyze_file] *)

(** One turn of the [while (fgets ..)] loop: the value of [line_num], the
    bytes [fgets] stored, and what the turn wrote. *)
Record iteration := mkIteration
  { it_num : Z; it_buf : list ascii; it_out : list event }.

Section Searcher.

(** [g_exact], and [g_search_terms] with [g_num_terms] its length. *)
Variable g_exact : bool.
Variable g_search_terms : list cstring.

(** Lines 138 to 141: the comparison selected by [g_exact]. *)
Definition compare (word term : cstring) : Z :=
  if g_exact then strcmp word term else strcasecmp word term.

(** The [for] loop over the terms, for one word.  [hit] is the record
    [printf] would write; the result is what was written and the new
    value of [found]. *)
Fixpoint term_loop (terms : list cstring) (word : cstring)
         (found : bool) (hit : cstring) : list event * bool :=
  match terms with
  | [] => ([], found)
  | t :: ts =>
      let result := compare word t in
      if (result =? 0) && negb found
      then ([Stdout hit], true)            (* printf; found = 1; break *)
      else term_loop ts word found hit
  end.

(** The [while (word != NULL)] loop.  [s] is the string [strtok_r]
    scans next: the line at first, the saved pointer afterwards. *)
Equations? word_loop (s : cstring) (found : bool) (hit : cstring)
  : list event * bool by wf (length s) lt :=
word_loop s found hit with inspect (strtok_r s delimit) := {
  | exist _ None _ => ([], found);
  | exist _ (Some (word, save)) Hs =>
      let r := term_loop g_search_terms word found hit in
      (* found = 0; word = strtok_r(NULL, ..) *)
      let k := word_loop save false hit in
      (fst r ++ fst k, snd k) }.
Proof. eapply strtok_r_save_shorter; eassumption. Qed.

Definition line_sz : nat := 100.

(** [printf("%s:%d:%s\n", ptest, line_num, match_line)]. *)
Definition match_record (ptest : option cstring) (line_num : Z)
           (match_line : cstring) : cstring :=
  fmt_s ptest ++ lit ":" ++ fmt_d line_num ++ lit ":" ++ match_line
    ++ [newline].

(** The [while (fgets(line, line_sz, file) != NULL)] loop; [line_num++]
    is an [int] increment. *)
Equations? file_loop (ptest : option cstring) (stream : list ascii)
           (line_num : Z) (found : bool)
  : list iteration by wf (length stream) lt :=
file_loop ptest stream line_num found with inspect (fgets line_sz stream) := {
  | exist _ None _ => [];
  | exist _ (Some (buf, rest)) Hr =>
      let line := c_str buf in
      let match_line := line in                       (* strcpy *)
      let r := word_loop line found
                 (match_record ptest line_num match_line) in
      mkIteration line_num buf (fst r)
        :: file_loop ptest rest (int_wrap (line_num + 1)) (snd r) }.
Proof. eapply fgets_rest_shorter; [|eassumption]. unfold line_sz; lia. Qed.

(** [analyze_file]: the scan, then [sem_post] and [fclose]. *)
Definition analyze_file (file : FILE) : list event :=
  let ptest := recover_filename file in
  flat_map it_out (file_loop ptest (f_stream file) 0 false)
    ++ [SemPost; Fclose].

End Searcher.

(** ** The Directory Walker: [ls] *)

(** What the system calls answer for one path: [stat] ([None] when it
    fails, otherwise whether [S_ISDIR] holds), [fopen] for reading
    ([None] for [NULL]) and [opendir] ([None] for [NULL], otherwise the
    entries [readdir] returns, in order, with the nodes they name). *)
Inductive node :=
| Node (st : option bool) (fo : option FILE)
       (od : option (list (cstring * node))).

Definition SEPARATOR : cstring := lit "/".

(** The test of line 185. *)
Definition is_dot (d_name : cstring) : bool :=
  (strcmp d_name (lit "..") =? 0) || (strcmp d_name (lit ".") =? 0).

(** The body of the [readdir] loop for one entry, with the recursive call
    as a parameter. *)
Definition visit (ls : cstring -> node -> list event) (path : cstring)
           (entry : cstring * node) : list event :=
  let '(d_name, child) := entry in
  if is_dot d_name then []                                  (* continue *)
  else
    let buffer := path ++ SEPARATOR ++ d_name in
    Stat buffer ::
    match child with
    | Node None _ _ => []
    | Node (Some isdir) fo _ =>
        Fopen buffer ::
        match fo with
        | None => [Perror]
        | Some f => [SemWait; PthreadCreate f]
        end
        ++ (if isdir : bool then ls buffer child else [])
    end.

Fixpoint ls (path : cstring) (n : node) {struct n} : list event :=
  match n with
  | Node _ _ None => [Opendir path; Perror]
  | Node _ _ (Some entries) =>
      Opendir path :: flat_map (visit ls path) entries ++ [Closedir path]
  end.

(** ** The entry point: [main] *)

(** What one call of [getopt(argc, argv, "d:eht:")] returns, with
    [optarg] or [optopt]; [optopt] is the option byte, which [getopt]
    stores as a [char] widened to [int]. *)
Inductive getopt_result :=
| Opt_d (optarg : cstring)
| Opt_e
| Opt_h
| Opt_t (optarg : cstring)
| Opt_question (optopt : ascii).

(** How the main thread ends. *)
Inductive status :=
| Return (code : Z)
| Abort
| PthreadExit.

(** The exit status of the process: [pthread_exit(0)] in the main thread
    lets the other threads finish and the process then exits with 0;
    [abort] kills the process with [SIGABRT], which is no exit status. *)
Definition exit_status (st : status) : option Z :=
  match st with
  | Return code => Some code
  | PthreadExit => Some 0
  | Abort => None
  end.

(** [g_search_dir], [g_exact] and the local [max_threads]. *)
Record config := mkConfig
  { g_search_dir : option cstring; g_exact : bool; max_threads : Z }.

Inductive loop_result :=
| Continue (g : config)
| Stop (st : status).

Definition print_usage (argv0 : cstring) : list event :=
  [ Stdout (lit "Usage: " ++ argv0 ++ lit " [-eh] [-d directory] [-t threads] "
              ++ lit "search_term1 search_term2 ... search_termN" ++ [newline]);
    Stdout [newline];
    Stdout (lit "Options:" ++ [newline]
       ++ lit "    * -d directory    specify start directory (default: CWD)"
       ++ [newline]
       ++ lit "    * -e              print exact name matches only" ++ [newline]
       ++ lit "    * -h              show usage information" ++ [newline]
       ++ lit "    * -t threads      set maximum threads (default: # procs)"
       ++ [newline]);
    Stdout [newline] ].

Section Main.

Variable argv0 : cstring.
(** [get_nprocs()]. *)
Variable num_cores : Z.

(** The [while ((c = getopt(..)) != -1)] loop with its [switch]. *)
Fixpoint getopt_loop (opts : list getopt_result) (g : config)
  : list event * loop_result :=
  match opts with
  | [] => ([], Continue g)
  | c :: rest =>
      match c with
      | Opt_d optarg =>
          getopt_loop rest
            (mkConfig (Some optarg) (g_exact g) (max_threads g))
      | Opt_e =>
          getopt_loop rest (mkConfig (g_search_dir g) true (max_threads g))
      | Opt_h => (print_usage argv0, Stop (Return 0))
      | Opt_t optarg =>
          let max_threads := atoi optarg in
          if (max_threads <? 1) || (max_threads >? num_cores)
          then ([Stdout (lit "You entered an invalid number of theads. "
                          ++ lit "It must be between 1 and "
                          ++ fmt_d num_cores)],
                Stop Abort)
          else getopt_loop rest
                 (mkConfig (g_search_dir g) (g_exact g) max_threads)
      | Opt_question optopt =>
          ([Stderr
              (if Ascii.eqb optopt "d" || Ascii.eqb optopt "t"
               then lit "Option -" ++ [optopt]
                      ++ lit " requires an argument." ++ [newline]
               else if isprint optopt
               then lit "Unknown option `-" ++ [optopt] ++ lit "'."
                      ++ [newline]
               else lit "Unknown option character `\x"
                      ++ fmt_x (Z.to_N (schar optopt mod 2 ^ 32)) ++ lit "'."
                      ++ [newline])],
           Stop (Return 1))
      end
  end.

(** [main]: the events of the main thread and how it ends.  [cwd] is
    what [getcwd] stores, [fs] what the system calls answer for the
    start directory. *)
Definition main (opts : list getopt_result) (cwd : cstring)
           (fs : cstring -> node) : list event * status :=
  match getopt_loop opts (mkConfig None false num_cores) with
  | (ev, Stop st) => (ev, st)
  | (ev, Continue g) =>
      let dir := match g_search_dir g with
                 | None => cwd
                 | Some d => d
                 end in
      (ev ++ [SemInit (max_threads g);
              Stdout (lit "dir is: " ++ dir ++ [newline])]
          ++ ls dir (fs dir),
       PthreadExit)
  end.

End Main.

(** ** The threads and the semaphore

    The main thread runs the events of [ls] in order; every
    [pthread_create] starts a thread that runs the events of
    [analyze_file] on the handle it was given.  A schedule picks, at each
    instant, the thread that performs its next event; [sem_wait] can only
    be performed while the semaphore is positive.  [pthread_create] is
    taken to succeed: the code does not look at its result. *)

Inductive thread_id :=
| MainThread
| Worker (i : nat).

Record mstate := mkState
  { sem : Z;                          (* the value of [sem] *)
    main_thread : list event;         (* events the main thread has left *)
    workers : list (list event);      (* events each searcher has left *)
    stdout : list cstring }.          (* what was written, in order *)

Fixpoint set_nth {A} (i : nat) (x : A) (l : list A) : list A :=
  match l, i with
  | [], _ => []
  | _ :: r, O => x :: r
  | y :: r, S j => y :: set_nth j x r
  end.

Definition is_SemPost (e : event) : bool :=
  match e with SemPost => true | _ => false end.
Definition is_Fclose (e : event) : bool :=
  match e with Fclose => true | _ => false end.

(** A searcher holds its slot until it has performed [sem_post], and its
    open handle until it has performed [fclose]. *)
Definition holds_slot (prog : list event) : bool := existsb is_SemPost prog.
Definition holds_handle (prog : list event) : bool := existsb is_Fclose prog.

Definition slots_held (s : mstate) : nat :=
  length (filter holds_slot (workers s)).
Definition handles_open (s : mstate) : nat :=
  length (filter holds_handle (workers s)).

Section Machine.

Variable exact : bool.
Variable terms : list cstring.

(** The effect of one event on the shared state; [None] when the event
    cannot be performed now. *)
Definition effect (e : event) (s : mstate) : option mstate :=
  match e with
  | SemInit v => Some (mkState v (main_thread s) (workers s) (stdout s))
  | SemWait =>
      if 0 <? sem s
      then Some (mkState (sem s - 1) (main_thread s) (workers s) (stdout s))
      else None
  | SemPost =>
      Some (mkState (sem s + 1) (main_thread s) (workers s) (stdout s))
  | PthreadCreate f =>
      Some (mkState (sem s) (main_thread s)
              (workers s ++ [analyze_file exact terms f]) (stdout s))
  | Stdout r =>
      Some (mkState (sem s) (main_thread s) (workers s) (stdout s ++ [r]))
  | _ => Some s
  end.

Definition step (t : thread_id) (s : mstate) : option mstate :=
  match t with
  | MainThread =>
      match main_thread s with
      | [] => None
      | e :: prog =>
          effect e (mkState (sem s) prog (workers s) (stdout s))
      end
  | Worker i =>
      match nth_error (workers s) i with
      | Some (e :: prog) =>
          effect e (mkState (sem s) (main_thread s)
                      (set_nth i prog (workers s)) (stdout s))
      | _ => None
      end
  end.

Fixpoint run (schedule : list thread_id) (s : mstate) : option mstate :=
  match schedule with
  | [] => Some s
  | t :: rest =>
      match step t s with
      | Some s' => run rest s'
      | None => None
      end
  end.

(** The state right after [sem_init(&sem, 0, limit)], with the walk of
    [main] still to be done. *)
Definition init (limit : Z) (walk : list event) : mstate :=
  mkState limit walk [] [].

End Machine.

(** ** Whole-word occurrence, stated on the text of a line

    [occurs_delimited exact t line]: the term [t] (under the case mode)
    occurs in [line] at a place that starts at the beginning of the line
    or right after a delimiter, and ends at the end of the line or right
    before a delimiter. *)

Fixpoint eqb_cstring (a b : cstring) : bool :=
  match a, b with
  | [], [] => true
  | x :: a', y :: b' => Ascii.eqb x y && eqb_cstring a' b'
  | _, _ => false
  end.

Definition same_word (exact : bool) (w t : cstring) : bool :=
  if exact then eqb_cstring w t
  else eqb_cstring (map tolower w) (map tolower t).

Definition boundary_after (post : cstring) : bool :=
  match post with
  | [] => true
  | c :: _ => in_set delimit c
  end.

Fixpoint occurs_from (exact : bool) (t : cstring) (at_boundary : bool)
         (s : cstring) : bool :=
  (at_boundary && same_word exact (firstn (length t) s) t
     && boundary_after (skipn (length t) s))
  || match s with
     | [] => false
     | c :: r => occurs_from exact t (in_set delimit c) r
     end.

Definition occurs_delimited (exact : bool) (t line : cstring) : bool :=
  occurs_from exact (c_str t) true line.

(** ** The words of a line, as [strtok_r] delivers them *)

Equations? words (s : cstring) : list cstring by wf (length s) lt :=
words s with inspect (strtok_r s delimit) := {
  | exist _ None _ => [];
  | exist _ (Some (word, save)) Hs => word :: words save }.
Proof. eapply strtok_r_save_shorter; eassumption. Qed.

(** The word compares equal to one of the terms. *)
Definition word_matches (exact : bool) (terms : list cstring)
           (word : cstring) : bool :=
  existsb (fun t => compare exact word t =? 0) terms.

Definition line_matches (exact : bool) (terms : list cstring)
           (line : cstring) : bool :=
  existsb (word_matches exact terms) (words line).

(** A text file for the examples: its resolved name and its lines, each
    ended by a newline. *)
Definition text_file (name : string) (content : list cstring) : FILE :=
  mkFILE (Some (lit name)) (flat_map (fun l => l ++ [newline]) content).
Arguments text_file name%_string content%_list.

(** ** Notions used to state the properties *)

Definition is_delim (c : ascii) : bool := in_set delimit c.

(** [bounded b pre]: the text [pre] ends right after a delimiter, or is
    empty and [b] holds. *)
Fixpoint bounded (b : bool) (pre : cstring) : bool :=
  match pre with
  | [] => b
  | c :: p => bounded (is_delim c) p
  end.

Definition no_NUL (s : list ascii) : Prop := Forall (fun c => c <> NUL) s.

(** The value of [line_num] after [k] more turns of the loop. *)
Fixpoint line_num_after (k : nat) (n : Z) : Z :=
  match k with
  | O => n
  | S k' => line_num_after k' (int_wrap (n + 1))
  end.

(** Events of the walk that touch neither the semaphore nor a thread. *)
Definition quiet (e : event) : bool :=
  match e with
  | Stdout _ | Stderr _ | Perror | Opendir _ | Closedir _ | Stat _
  | Fopen _ => true
  | SemInit _ | SemWait | PthreadCreate _ | SemPost | Fclose => false
  end.

(** The shape of the walk: every [pthread_create] comes right after a
    [sem_wait], and the walk itself never posts. *)
Inductive walker_prog : list event -> Prop :=
| wp_done : walker_prog []
| wp_quiet e prog :
    quiet e = true -> walker_prog prog -> walker_prog (e :: prog)
| wp_spawn f prog :
    walker_prog prog -> walker_prog (SemWait :: PthreadCreate f :: prog).

(** What a searcher has left to do: writes, then [sem_post], then
    [fclose]. *)
Inductive searcher_prog : list event -> Prop :=
| sp_write r prog : searcher_prog prog -> searcher_prog (Stdout r :: prog)
| sp_post : searcher_prog [SemPost; Fclose]
| sp_close : searcher_prog [Fclose]
| sp_done : searcher_prog [].

(** A walk that is about to create a thread has taken its slot already. *)
Definition pending (prog : list event) : Z :=
  match prog with
  | PthreadCreate _ :: _ => 1
  | _ => 0
  end.

Definition main_ok (prog : list event) : Prop :=
  walker_prog prog \/
  exists f rest, prog = PthreadCreate f :: rest /\ walker_prog rest.

Record invariant (limit : Z) (s : mstate) : Prop := mkInvariant
  { inv_sem : 0 <= sem s;
    inv_count :
      sem s + Z.of_nat (slots_held s) + pending (main_thread s) = limit;
    inv_main : main_ok (main_thread s);
    inv_workers : Forall searcher_prog (workers s) }.

(** [opendir] fails for the node. *)
Definition opendir_fails (n : node) : bool :=
  match n with
  | Node _ _ None => true
  | Node _ _ (Some _) => false
  end.

(** A term that can match a word: its C string is not empty and holds no
    delimiter. *)
Definition matchable (t : cstring) : bool :=
  match c_str t with
  | [] => false
  | _ :: _ => forallb (fun c => negb (in_set delimit c)) (c_str t)
  end.

(** The path an event of the walk names. *)
Definition event_path (e : event) : option cstring :=
  match e with
  | Opendir p | Closedir p | Stat p | Fopen p => Some p
  | _ => None
  end.

(** The directory streams that are open after a trace, innermost first:
    an [opendir] that is followed by the diagnostic has failed and opened
    nothing; a [closedir] must close the innermost open stream ([None]
    otherwise). *)
Fixpoint open_dirs (trace : list event) (stack : list cstring)
  : option (list cstring) :=
  match trace with
  | [] => Some stack
  | Opendir _ :: ((Perror :: _) as rest) => open_dirs rest stack
  | Opendir p :: rest => open_dirs rest (p :: stack)
  | Closedir p :: rest =>
      match stack with
      | q :: stack' =>
          if eqb_cstring p q then open_dirs rest stack' else None
      | [] => None
      end
  | _ :: rest => open_dirs rest stack
  end.

(** Nothing is left to do: the walk is over and every searcher has closed
    its handle. *)
Definition finished (s : mstate) : bool :=
  match main_thread s with
  | [] => forallb (fun prog => match prog with [] => true | _ => false end)
                  (workers s)
  | _ :: _ => false
  end.

Section Progress.

Variable exact : bool.
Variable terms : list cstring.

(** The steps an event stands for: one, and for [pthread_create] also
    those of the searcher it starts. *)
Definition cost (e : event) : nat :=
  match e with
  | PthreadCreate f => S (length (analyze_file exact terms f))
  | _ => 1%nat
  end.

Definition remaining (s : mstate) : nat :=
  list_sum (map cost (main_thread s))
  + list_sum (map (fun prog => list_sum (map cost prog)) (workers s)).



End Progress.

(** The argument of the last [-d] among the options, if any. *)
Definition last_dir (opts : list getopt_result) : option cstring :=
  fold_left (fun acc c => match c with Opt_d optarg => Some optarg
                                   | _ => acc end)
            opts None.

Definition is_Opt_e (c : getopt_result) : bool :=
  match c with Opt_e => true | _ => false end.

(** The value of a string of decimal digits, continuing from [acc]. *)
Fixpoint uint_value (d : Decimal.uint) (acc : Z) : Z :=
  match d with
  | Decimal.Nil => acc
  | Decimal.D0 l => uint_value l (10 * acc + 0)
  | Decimal.D1 l => uint_value l (10 * acc + 1)
  | Decimal.D2 l => uint_value l (10 * acc + 2)
  | Decimal.D3 l => uint_value l (10 * acc + 3)
  | Decimal.D4 l => uint_value l (10 * acc + 4)
  | Decimal.D5 l => uint_value l (10 * acc + 5)
  | Decimal.D6 l => uint_value l (10 * acc + 6)
  | Decimal.D7 l => uint_value l (10 * acc + 7)
  | Decimal.D8 l => uint_value l (10 * acc + 8)
  | Decimal.D9 l => uint_value l (10 * acc + 9)
  end.

(** ** Files and directories of the examples *)

(** The scenario of the specification: [a.txt] holds the lines
    "hello world" and "the cat sat". *)
Definition a_txt : FILE :=
  text_file "/root/a.txt" [lit "hello world"; lit "the cat sat"].

Definition b_txt : FILE :=
  text_file "/root/b.txt" [lit "theme park"; lit "cat nap"].

(** A file with the single line "the". *)
Definition c_txt : FILE := text_file "/root/c.txt" [lit "the"].

(** A line of 120 letters followed by a short one. *)
Definition long_stream : list ascii :=
  repeat "x"%char 120 ++ [newline] ++ lit "the end" ++ [newline].

(** An empty directory that [fopen] opens as well, as Linux does for
    reading; its handle delivers nothing ([fgets] fails at once). *)
Definition dir_handle : FILE := mkFILE (Some (lit "/root/sub")) [].
Definition empty_dir : node := Node (Some true) (Some dir_handle) (Some []).

(** The start directory [/root] with the one entry [sub]. *)
Definition root_with_subdir : node :=
  Node (Some true) None
       (Some [(lit ".", Node (Some true) None None);
              (lit "..", Node (Some true) None None);
              (lit "sub", empty_dir)]).

(** The start directory of the scenario: [a.txt] and [b.txt]. *)
Definition two_files : node :=
  Node (Some true) None
       (Some [(lit "a.txt", Node (Some false) (Some a_txt) None);
              (lit "b.txt", Node (Some false) (Some b_txt) None)]).

(** With one slot: the walk starts the searcher of [a.txt] and opens
    [b.txt]; the searcher writes its two records and posts; the walk takes
    the slot and starts the searcher of [b.txt] while the first one has
    not yet closed its handle. *)
Definition overlap_schedule : list thread_id :=
  repeat MainThread 7 ++ repeat (Worker 0) 3 ++ repeat MainThread 2.

(** A file system in which the start directory cannot be listed. *)
Definition unreadable : cstring -> node := fun _ => Node None None None.

(** A start directory without entries. *)
Definition empty_root : cstring -> node :=
  fun _ => Node (Some true) None (Some []).


(** A line of 99 bytes or more whose 99th byte falls inside the token
    "theme": 95 letters, a space, and "theme park". *)
Definition cut_token_stream : list ascii :=
  repeat "x"%char 95 ++ lit " theme park" ++ [newline].

(** The text of that line, and a file that holds it and nothing else. *)
Definition long_line : cstring := repeat "x"%char 95 ++ lit " theme park".
Definition long_txt : FILE :=
  mkFILE (Some (lit "/root/long.txt")) (long_line ++ [newline]).

(** A schedule that runs the scenario to its end, one searcher at a
    time. *)
Definition serial_schedule : list thread_id :=
  repeat MainThread 5 ++ repeat (Worker 0) 4 ++ repeat MainThread 4
    ++ repeat (Worker 1) 3 ++ repeat MainThread 1.


(** * Properties *)

(** ** The comparisons *)

Lemma uchar_inj (x y : ascii) : uchar x = uchar y -> x = y.
Proof.
  unfold uchar. intros H. apply N2Z.inj in H.
  rewrite <- (ascii_N_embedding x), <- (ascii_N_embedding y), H.
  reflexivity.
Qed.

Lemma uchar_NUL (c : ascii) : uchar c = 0 <-> c = NUL.
Proof.
  split; [intros H; apply uchar_inj; exact H | intros ->; reflexivity].
Qed.

Lemma tolower_NUL (c : ascii) : tolower c = NUL <-> c = NUL.
Proof.
  split; [|intros ->; reflexivity].
  destruct c as [[|] [|] [|] [|] [|] [|] [|] [|]]; vm_compute;
    intros H; first [reflexivity | discriminate H].
Qed.

Lemma c_str_nil_iff (c : ascii) (r : list ascii) :
  c_str (c :: r) = [] <-> c = NUL.
Proof.
  simpl. destruct (Ascii.eqb_spec c NUL) as [->|Hc]; split; intros H;
    try reflexivity; try discriminate; contradiction.
Qed.

Lemma strcmp_0 (a b : cstring) : strcmp a b = 0 <-> c_str a = c_str b.
Proof.
  revert b; induction a as [|x a IH]; intros [|y b].
  - simpl; tauto.
  - cbn [strcmp].
    split; [intros H; symmetry; apply c_str_nil_iff, uchar_NUL; lia
           | intros H; symmetry in H; apply c_str_nil_iff, uchar_NUL in H; lia].
  - cbn [strcmp]. rewrite c_str_nil_iff, <- uchar_NUL. lia.
  - cbn [strcmp c_str].
    destruct (Ascii.eqb_spec x y) as [->|Hxy].
    + destruct (Ascii.eqb_spec y NUL) as [->|Hy]; [tauto|].
      rewrite IH. split; [intros ->; reflexivity | intros [= ->]; reflexivity].
    + split.
      * intros H. exfalso. apply Hxy, uchar_inj. lia.
      * destruct (Ascii.eqb_spec x NUL) as [->|Hx],
                 (Ascii.eqb_spec y NUL) as [->|Hy];
          try discriminate; try contradiction.
        intros [= H _]; contradiction.
Qed.

Lemma strcasecmp_0 (a b : cstring) :
  strcasecmp a b = 0 <-> map tolower (c_str a) = map tolower (c_str b).
Proof.
  revert b; induction a as [|x a IH]; intros [|y b].
  - simpl; tauto.
  - cbn [strcasecmp c_str map].
    destruct (Ascii.eqb_spec y NUL) as [->|Hy]; [simpl; tauto|].
    split; [|discriminate]. intros H. exfalso. apply Hy, tolower_NUL, uchar_NUL. lia.
  - cbn [strcasecmp c_str map].
    destruct (Ascii.eqb_spec x NUL) as [->|Hx]; [simpl; tauto|].
    split; [|discriminate]. intros H. exfalso. apply Hx, tolower_NUL, uchar_NUL. lia.
  - cbn [strcasecmp c_str].
    destruct (Ascii.eqb_spec (tolower x) (tolower y)) as [Hxy|Hxy].
    + destruct (Ascii.eqb_spec x NUL) as [->|Hx].
      * assert (y = NUL) as -> by (apply tolower_NUL; symmetry; exact Hxy).
        simpl; tauto.
      * destruct (Ascii.eqb_spec y NUL) as [->|Hy].
        { exfalso. apply Hx, tolower_NUL. exact Hxy. }
        cbn [map]. rewrite IH, Hxy.
        split; [intros ->; reflexivity | intros [= ->]; reflexivity].
    + split.
      * intros H. exfalso. apply Hxy, uchar_inj. lia.
      * destruct (Ascii.eqb_spec x NUL) as [->|Hx],
                 (Ascii.eqb_spec y NUL) as [->|Hy]; cbn [map].
        -- contradiction.
        -- discriminate.
        -- discriminate.
        -- intros [= H _]; contradiction.
Qed.

(** ** Unfolding the loops *)

Lemma word_loop_eq exact terms s found hit :
  word_loop exact terms s found hit =
  match strtok_r s delimit with
  | None => ([], found)
  | Some (word, save) =>
      let r := term_loop exact terms word found hit in
      let k := word_loop exact terms save false hit in
      (fst r ++ fst k, snd k)
  end.
Proof.
  funelim (word_loop exact terms s found hit);
    [rewrite Hs | rewrite e]; reflexivity.
Qed.

Lemma file_loop_eq exact terms ptest stream line_num found :
  file_loop exact terms ptest stream line_num found =
  match fgets line_sz stream with
  | None => []
  | Some (buf, rest) =>
      let line := c_str buf in
      let r := word_loop exact terms line found
                 (match_record ptest line_num line) in
      mkIteration line_num buf (fst r)
        :: file_loop exact terms ptest rest (int_wrap (line_num + 1)) (snd r)
  end.
Proof.
  funelim (file_loop exact terms ptest stream line_num found);
    [rewrite Hr | rewrite e]; reflexivity.
Qed.

Lemma words_eq s :
  words s =
  match strtok_r s delimit with
  | None => []
  | Some (word, save) => word :: words save
  end.
Proof.
  funelim (words s); [rewrite Hs | rewrite e]; reflexivity.
Qed.

(** Induction along the calls of [strtok_r]. *)
Lemma strtok_ind (P : cstring -> Prop) :
  (forall s, strtok_r s delimit = None -> P s) ->
  (forall s word save,
      strtok_r s delimit = Some (word, save) -> P save -> P s) ->
  forall s, P s.
Proof.
  intros Hnone Hsome s.
  remember (length s) as n eqn:Hn. revert s Hn.
  induction n as [n IH] using (well_founded_induction Wf_nat.lt_wf).
  intros s ->.
  destruct (strtok_r s delimit) as [[word save]|] eqn:E.
  - eapply Hsome; [exact E|].
    eapply IH; [|reflexivity]. eapply strtok_r_save_shorter; exact E.
  - apply Hnone; exact E.
Qed.

(** ** The matcher on one line *)

Section MatcherFacts.

Variable exact : bool.
Variable terms : list cstring.

Lemma term_loop_found ts word hit :
  term_loop exact ts word true hit = ([], true).
Proof.
  induction ts as [|t ts IH]; [reflexivity|].
  cbn [term_loop]. rewrite andb_false_r. exact IH.
Qed.

Lemma term_loop_fresh ts word hit :
  term_loop exact ts word false hit =
  if word_matches exact ts word then ([Stdout hit], true) else ([], false).
Proof.
  induction ts as [|t ts IH]; [reflexivity|].
  cbn [term_loop word_matches existsb]. rewrite andb_true_r.
  destruct (compare exact word t =? 0); [reflexivity|].
  rewrite IH. reflexivity.
Qed.

(** The flag is down again after every word, so it is down whenever a
    line is entered with it down. *)
Lemma word_loop_flag s hit :
  snd (word_loop exact terms s false hit) = false.
Proof.
  induction s as [s E | s word save E IH] using strtok_ind;
    rewrite word_loop_eq, E; [reflexivity | exact IH].
Qed.

(** One write for every word that compares equal to a term. *)
Lemma word_loop_writes s hit :
  fst (word_loop exact terms s false hit) =
  map (fun _ => Stdout hit) (filter (word_matches exact terms) (words s)).
Proof.
  induction s as [s E | s word save E IH] using strtok_ind;
    rewrite word_loop_eq, words_eq, E; [reflexivity|].
  cbn [fst filter]. rewrite IH, term_loop_fresh.
  destruct (word_matches exact terms word); reflexivity.
Qed.

End MatcherFacts.

(** ** Tokens are delimiter-bounded runs *)

Lemma strspn_spec (s d : cstring) :
  Forall (fun c => in_set d c = true) (firstn (strspn s d) s) /\
  match skipn (strspn s d) s with
  | [] => True
  | c :: _ => in_set d c = false
  end.
Proof.
  induction s as [|c r [IH1 IH2]]; cbn [strspn]; [simpl; auto|].
  destruct (in_set d c) eqn:E; cbn [firstn skipn]; auto.
Qed.

Lemma strcspn_spec (s d : cstring) :
  Forall (fun c => in_set d c = false) (firstn (strcspn s d) s) /\
  match skipn (strcspn s d) s with
  | [] => True
  | c :: _ => in_set d c = true
  end.
Proof.
  induction s as [|c r [IH1 IH2]]; cbn [strcspn]; [simpl; auto|].
  destruct (in_set d c) eqn:E; cbn [firstn skipn]; auto.
Qed.

(** What one call of [strtok_r] cuts out of the string. *)
Lemma strtok_r_spec (s d w save : cstring) :
  strtok_r s d = Some (w, save) ->
  exists pre post,
    s = pre ++ w ++ post /\
    Forall (fun c => in_set d c = true) pre /\
    w <> [] /\
    Forall (fun c => in_set d c = false) w /\
    ((post = [] /\ save = []) \/
     exists c, in_set d c = true /\ post = c :: save).
Proof.
  unfold strtok_r.
  destruct (strspn_spec s d) as [Hpre Hhd].
  pose proof (firstn_skipn (strspn s d) s) as Hs.
  destruct (skipn (strspn s d) s) as [|c s1] eqn:E1; [discriminate|].
  cbv zeta.
  destruct (strcspn_spec (c :: s1) d) as [Hw Hnext].
  pose proof (firstn_skipn (strcspn (c :: s1) d) (c :: s1)) as Hs1.
  assert (Hne : firstn (strcspn (c :: s1) d) (c :: s1) <> []).
  { cbn [strcspn]. rewrite Hhd. discriminate. }
  destruct (skipn (strcspn (c :: s1) d) (c :: s1)) as [|e r] eqn:E2;
    intros [= <- <-].
  - exists (firstn (strspn s d) s), []. rewrite <- Hs at 1.
    rewrite <- Hs1 at 1. repeat split; auto.
  - exists (firstn (strspn s d) s), (e :: r). rewrite <- Hs at 1.
    rewrite <- Hs1 at 1. repeat split; auto.
    right. exists e. auto.
Qed.

Lemma bounded_app (b : bool) (p q : cstring) :
  bounded b (p ++ q) = bounded (bounded b p) q.
Proof. revert b; induction p as [|c p IH]; intros b; simpl; auto. Qed.

Lemma bounded_delims (pre : cstring) :
  Forall (fun c => in_set delimit c = true) pre -> bounded true pre = true.
Proof.
  assert (H : forall b, b = true ->
            Forall (fun c => in_set delimit c = true) pre ->
            bounded b pre = true).
  { induction pre as [|c p IH]; intros b Hb Hall; [exact Hb|].
    inversion Hall; subst. simpl. apply IH; assumption. }
  apply H; reflexivity.
Qed.

(** Every word [strtok_r] delivers sits in the line between two
    boundaries, is not empty and holds no delimiter. *)
Lemma words_occurrence (s w : cstring) :
  In w (words s) ->
  exists pre post,
    s = pre ++ w ++ post /\
    bounded true pre = true /\
    boundary_after post = true /\
    w <> [] /\
    Forall (fun c => in_set delimit c = false) w.
Proof.
  induction s as [s E | s word save E IH] using strtok_ind;
    rewrite words_eq, E; [intros []|].
  destruct (strtok_r_spec _ _ _ _ E)
    as (pre & post & Hs & Hpre & Hne & Hw & Hpost).
  intros [<- | Hin].
  - exists pre, post. repeat split; auto using bounded_delims.
    destruct Hpost as [[-> _] | (c & Hc & ->)]; [reflexivity | exact Hc].
  - destruct Hpost as [[-> ->] | (c & Hc & ->)].
    + rewrite words_eq in Hin. destruct Hin.
    + destruct (IH Hin) as (pre' & post' & Hsave & Hb & Ha & Hne' & Hw').
      exists (pre ++ word ++ c :: pre'), post'. repeat split; auto.
      * rewrite Hs, Hsave. rewrite <- !app_assoc. reflexivity.
      * rewrite !bounded_app. cbn [bounded]. unfold is_delim.
        rewrite Hc. exact Hb.
Qed.

(** ** From a matching word to a whole-word occurrence *)

Lemma c_str_no_NUL (buf : list ascii) : no_NUL (c_str buf).
Proof.
  induction buf as [|c r IH]; simpl; [constructor|].
  destruct (Ascii.eqb_spec c NUL); constructor; assumption.
Qed.

Lemma c_str_id (s : cstring) : no_NUL s -> c_str s = s.
Proof.
  induction 1 as [|c r Hc _ IH]; simpl; [reflexivity|].
  destruct (Ascii.eqb_spec c NUL); [contradiction | rewrite IH; reflexivity].
Qed.

Lemma eqb_cstring_eq (a b : cstring) : eqb_cstring a b = true <-> a = b.
Proof.
  revert b; induction a as [|x a IH]; intros [|y b]; simpl;
    try (split; [discriminate | discriminate]); [tauto|].
  rewrite andb_true_iff, IH.
  destruct (Ascii.eqb_spec x y) as [->|H]; split.
  - intros [_ ->]; reflexivity.
  - intros [= ->]; auto.
  - intros [H' _]; discriminate.
  - intros [= -> _]; contradiction.
Qed.

(** The comparison of the code agrees with [same_word] on C strings. *)
Lemma compare_same_word (exact : bool) (w t : cstring) :
  compare exact w t = 0 <-> same_word exact (c_str w) (c_str t) = true.
Proof.
  unfold compare, same_word. destruct exact.
  - rewrite strcmp_0, eqb_cstring_eq. tauto.
  - rewrite strcasecmp_0, eqb_cstring_eq. tauto.
Qed.

Lemma same_word_length (exact : bool) (w t : cstring) :
  same_word exact w t = true -> length w = length t.
Proof.
  unfold same_word. destruct exact; rewrite eqb_cstring_eq.
  - intros ->; reflexivity.
  - intros H. apply (f_equal (@Datatypes.length _)) in H.
    rewrite !length_map in H. exact H.
Qed.

Lemma occurs_from_intro (exact : bool) (t pre w post : cstring) (b : bool) :
  bounded b pre = true ->
  same_word exact w t = true ->
  boundary_after post = true ->
  occurs_from exact t b (pre ++ w ++ post) = true.
Proof.
  intros Hb Hw Hpost. pose proof (same_word_length _ _ _ Hw) as Hlen.
  revert b Hb; induction pre as [|c p IH]; intros b Hb.
  - cbn [app bounded] in *. subst b.
    destruct (w ++ post) eqn:E.
    + cbn [occurs_from]. rewrite <- E, <- Hlen.
      rewrite firstn_app, Nat.sub_diag, firstn_all, firstn_O, app_nil_r.
      rewrite skipn_app, Nat.sub_diag, skipn_all, skipn_O.
      cbn [app]. rewrite Hw, Hpost. reflexivity.
    + cbn [occurs_from]. rewrite <- E, <- Hlen.
      rewrite firstn_app, Nat.sub_diag, firstn_all, firstn_O, app_nil_r.
      rewrite skipn_app, Nat.sub_diag, skipn_all, skipn_O.
      cbn [app]. rewrite Hw, Hpost. reflexivity.
  - cbn [app occurs_from]. specialize (IH _ Hb). unfold is_delim in IH.
    rewrite IH. apply orb_true_r.
Qed.

(** A line with a word that compares equal to a term holds a whole-word
    occurrence of that term. *)
Lemma line_matches_occurs (exact : bool) (terms : list cstring)
      (line : cstring) :
  no_NUL line ->
  line_matches exact terms line = true ->
  exists t, In t terms /\ occurs_delimited exact t line = true.
Proof.
  intros Hnul. unfold line_matches. rewrite existsb_exists.
  intros (w & Hin & Hm). unfold word_matches in Hm.
  apply existsb_exists in Hm. destruct Hm as (t & Ht & Hcmp).
  exists t. split; [exact Ht|].
  destruct (words_occurrence _ _ Hin) as (pre & post & Hs & Hb & Ha & _ & _).
  apply Z.eqb_eq, compare_same_word in Hcmp.
  assert (Hw : no_NUL w).
  { unfold no_NUL in *. rewrite Hs in Hnul.
    apply Forall_app in Hnul as [_ Hnul].
    apply Forall_app in Hnul as [Hnul _]. exact Hnul. }
  rewrite (c_str_id _ Hw) in Hcmp.
  unfold occurs_delimited. rewrite Hs.
  apply occurs_from_intro; assumption.
Qed.

(** ** Reading a file chunk by chunk *)

Lemma int_wrap_small (z : Z) : - 2 ^ 31 <= z < 2 ^ 31 -> int_wrap z = z.
Proof. intros H. unfold int_wrap. rewrite Z.mod_small; lia. Qed.

Lemma int_wrap_succ (z : Z) : int_wrap (int_wrap z + 1) = int_wrap (z + 1).
Proof.
  unfold int_wrap.
  replace ((z + 2 ^ 31) mod 2 ^ 32 - 2 ^ 31 + 1 + 2 ^ 31)
    with ((z + 2 ^ 31) mod 2 ^ 32 + 1) by lia.
  rewrite Z.add_mod_idemp_l by lia.
  replace (z + 2 ^ 31 + 1) with (z + 1 + 2 ^ 31) by lia. reflexivity.
Qed.

Lemma line_num_after_wrap (k : nat) (z : Z) :
  line_num_after k (int_wrap z) = int_wrap (z + Z.of_nat k).
Proof.
  revert z; induction k as [|k IH]; intros z.
  - cbn [line_num_after]. f_equal. lia.
  - cbn [line_num_after]. rewrite int_wrap_succ, IH. f_equal. lia.
Qed.

Lemma line_num_after_0 (k : nat) :
  line_num_after k 0 = int_wrap (Z.of_nat k).
Proof. exact (line_num_after_wrap k 0). Qed.

(** [fgets_read k] takes a prefix of at most [k] bytes; it ends with the
    first newline, or holds no newline and then is [k] bytes long or
    reaches the end of the stream. *)
Lemma fgets_read_spec (k : nat) (stream buf rest : list ascii) :
  fgets_read k stream = (buf, rest) ->
  stream = buf ++ rest /\
  (length buf <= k)%nat /\
  ((exists body, buf = body ++ [newline] /\ ~ In newline body) \/
   (~ In newline buf /\ (length buf = k \/ rest = []))).
Proof.
  revert stream buf rest; induction k as [|k IH]; intros [|c r] buf rest;
    cbn [fgets_read].
  - intros [= <- <-]. split; [reflexivity|]. split; [simpl; lia|].
    right. simpl. auto.
  - intros [= <- <-]. split; [reflexivity|]. split; [simpl; lia|].
    right. simpl. auto.
  - intros [= <- <-]. split; [reflexivity|]. split; [simpl; lia|].
    right. simpl. auto.
  - destruct (Ascii.eqb_spec c newline) as [->|Hc].
    + intros [= <- <-]. split; [reflexivity|]. split; [simpl; lia|].
      left. exists []. auto.
    + destruct (fgets_read k r) as [b r'] eqn:E. intros [= <- <-].
      destruct (IH _ _ _ E) as (Hs & Hlen & Hend).
      split; [rewrite Hs; reflexivity|]. split; [simpl; lia|].
      destruct Hend as [(body & -> & Hbody) | (Hno & Hk)].
      * left. exists (c :: body). split; [reflexivity|].
        intros [H|H]; [congruence | contradiction].
      * right. split; [intros [H|H]; [congruence | contradiction]|].
        destruct Hk as [Hk|Hk]; [left; simpl; lia | right; exact Hk].
Qed.

Lemma fgets_read_nonempty (k : nat) (c : ascii) (r : list ascii) :
  fst (fgets_read (S k) (c :: r)) <> [].
Proof.
  cbn [fgets_read]. destruct (Ascii.eqb c newline); [discriminate|].
  destruct (fgets_read k r); discriminate.
Qed.

Lemma fgets_spec (stream buf rest : list ascii) :
  fgets line_sz stream = Some (buf, rest) ->
  stream = buf ++ rest /\
  (1 <= length buf <= 99)%nat /\
  ((exists body, buf = body ++ [newline] /\ ~ In newline body) \/
   (~ In newline buf /\ (length buf = 99%nat \/ rest = []))).
Proof.
  destruct stream as [|c r]; [discriminate|].
  unfold fgets. change (line_sz - 1)%nat with 99%nat.
  pose proof (fgets_read_nonempty 98 c r) as Hne.
  remember (fgets_read 99 (c :: r)) as p eqn:Hp. symmetry in Hp.
  intros H. assert (p = (buf, rest)) as -> by congruence. clear H.
  destruct (fgets_read_spec _ _ _ _ Hp) as (Hs & Hlen & Hend).
  repeat split; auto.
  destruct buf; [contradiction Hne; reflexivity | simpl; lia].
Qed.

(** Induction along the calls of [fgets]. *)
Lemma fgets_ind (P : list ascii -> Prop) :
  (forall stream, fgets line_sz stream = None -> P stream) ->
  (forall stream buf rest,
      fgets line_sz stream = Some (buf, rest) -> P rest -> P stream) ->
  forall stream, P stream.
Proof.
  intros Hnone Hsome stream.
  remember (length stream) as n eqn:Hn. revert stream Hn.
  induction n as [n IH] using (well_founded_induction Wf_nat.lt_wf).
  intros stream ->.
  destruct (fgets line_sz stream) as [[buf rest]|] eqn:E.
  - eapply Hsome; [exact E|].
    eapply IH; [|reflexivity]. eapply fgets_rest_shorter; [|exact E].
    unfold line_sz; lia.
  - apply Hnone; exact E.
Qed.

Section FileLoopFacts.

Variable exact : bool.
Variable terms : list cstring.
Variable ptest : option cstring.

(** The chunks are consecutive pieces of the stream. *)
Lemma file_loop_concat (stream : list ascii) (n : Z) :
  List.concat (map it_buf (file_loop exact terms ptest stream n false)) = stream.
Proof.
  revert n.
  induction stream as [stream E | stream buf rest E IH] using fgets_ind;
    intros n; rewrite file_loop_eq, E.
  - destruct stream; [reflexivity | discriminate].
  - cbn [map List.concat it_buf]. cbv zeta. rewrite word_loop_flag, IH.
    symmetry. apply (fgets_spec _ _ _ E).
Qed.

(** The [k]-th turn of the loop: what it read, its line number and what
    it wrote. *)
Lemma file_loop_nth (stream : list ascii) (n : Z) (k : nat)
      (it : iteration) :
  nth_error (file_loop exact terms ptest stream n false) k = Some it ->
  exists pre rest,
    stream = pre ++ it_buf it ++ rest /\
    fgets line_sz (it_buf it ++ rest) = Some (it_buf it, rest) /\
    it_num it = line_num_after k n /\
    it_out it =
      fst (word_loop exact terms (c_str (it_buf it)) false
             (match_record ptest (it_num it) (c_str (it_buf it)))).
Proof.
  revert n k.
  induction stream as [stream E | stream buf rest E IH] using fgets_ind;
    intros n k; rewrite file_loop_eq, E.
  - destruct k; discriminate.
  - cbv zeta. rewrite word_loop_flag.
    pose proof (fgets_spec _ _ _ E) as (Hs & _).
    destruct k as [|k]; cbn [nth_error].
    + intros [= <-]. exists [], rest. cbn [app it_buf it_num it_out].
      rewrite <- Hs. auto.
    + intros H. destruct (IH _ _ H) as (pre & rest' & Hr & Hf & Hn & Ho).
      exists (buf ++ pre), rest'. rewrite <- app_assoc, <- Hr.
      auto.
Qed.

End FileLoopFacts.

(** ** The walk *)

(** Induction on the nodes of a tree, entries included. *)
Lemma node_tree_ind (P : node -> Prop) :
  (forall st fo, P (Node st fo None)) ->
  (forall st fo entries,
      Forall (fun e => P (snd e)) entries -> P (Node st fo (Some entries))) ->
  forall n, P n.
Proof.
  intros Hleaf Hdir. fix IH 1. intros [st fo [entries|]]; [|apply Hleaf].
  apply Hdir. induction entries as [|[d c] es IHes]; constructor.
  - apply IH.
  - exact IHes.
Qed.

Lemma walker_prog_app (a b : list event) :
  walker_prog a -> walker_prog b -> walker_prog (a ++ b).
Proof.
  induction 1; intros Hb; cbn [app]; auto using walker_prog.
Qed.

Lemma ls_walker_prog (n : node) (path : cstring) : walker_prog (ls path n).
Proof.
  revert path.
  induction n as [st fo | st fo entries IH] using node_tree_ind; intros path.
  - cbn [ls]. repeat constructor.
  - cbn [ls]. apply wp_quiet; [reflexivity|].
    apply walker_prog_app; [|repeat constructor].
    induction IH as [|[d child] es Hchild _ IHes]; cbn [flat_map];
      [constructor|].
    apply walker_prog_app; [|exact IHes].
    unfold visit. destruct (is_dot d); [constructor|].
    apply wp_quiet; [reflexivity|].
    destruct child as [[isdir|] fo' od']; [|constructor].
    apply wp_quiet; [reflexivity|].
    apply walker_prog_app.
    + destruct fo'; [apply wp_spawn; constructor|].
      apply wp_quiet; [reflexivity | constructor].
    + destruct isdir; [apply Hchild | constructor].
Qed.

(** ** The searcher threads and the semaphore *)

Lemma file_loop_writes_only exact terms ptest stream n e :
  In e (flat_map it_out (file_loop exact terms ptest stream n false)) ->
  exists r, e = Stdout r.
Proof.
  rewrite in_flat_map. intros (it & Hit & He).
  apply In_nth_error in Hit. destruct Hit as [k Hk].
  destruct (file_loop_nth _ _ _ _ _ _ _ Hk) as (_ & _ & _ & _ & _ & Hout).
  rewrite Hout, word_loop_writes, in_map_iff in He.
  destruct He as (_ & <- & _). eauto.
Qed.

Lemma analyze_file_prog exact terms f :
  searcher_prog (analyze_file exact terms f).
Proof.
  unfold analyze_file. cbv zeta.
  pose proof (file_loop_writes_only exact terms (recover_filename f)
                (f_stream f) 0) as H.
  induction (flat_map it_out _) as [|e outs IH]; [constructor|].
  destruct (H e (or_introl eq_refl)) as [r ->].
  cbn [app]. constructor. apply IH. intros e' He'. apply H. right; exact He'.
Qed.

Lemma analyze_file_holds_slot exact terms f :
  holds_slot (analyze_file exact terms f) = true.
Proof.
  unfold analyze_file, holds_slot. cbv zeta.
  rewrite existsb_app. cbn. apply orb_true_r.
Qed.

Lemma walker_prog_pending prog : walker_prog prog -> pending prog = 0.
Proof. destruct 1 as [|e prog He _|]; try reflexivity. destruct e; auto; discriminate. Qed.

Lemma set_nth_filter_length {A} (h : A -> bool) i old new (ws : list A) :
  nth_error ws i = Some old ->
  Z.of_nat (length (filter h (set_nth i new ws))) =
  Z.of_nat (length (filter h ws)) - Z.b2z (h old) + Z.b2z (h new).
Proof.
  revert i; induction ws as [|w ws IH]; intros [|i]; cbn [nth_error];
    try discriminate.
  - intros [= ->]. cbn [set_nth filter].
    destruct (h old), (h new); cbn [Datatypes.length Z.b2z]; lia.
  - intros H. specialize (IH _ H). cbn [set_nth filter].
    destruct (h w); cbn [Datatypes.length]; lia.
Qed.

Lemma set_nth_Forall {A} (P : A -> Prop) i new (ws : list A) :
  P new -> Forall P ws -> Forall P (set_nth i new ws).
Proof.
  intros Hnew Hws. revert i; induction Hws as [|w ws Hw Hws IH]; intros [|i];
    cbn [set_nth]; constructor; auto.
Qed.

Lemma filter_app_length {A} (h : A -> bool) (ws : list A) (w : A) :
  h w = true ->
  length (filter h (ws ++ [w])) = S (length (filter h ws)).
Proof.
  intros Hw. rewrite filter_app, length_app. cbn [filter]. rewrite Hw.
  cbn [Datatypes.length]. lia.
Qed.

Section MachineFacts.

Variable exact : bool.
Variable terms : list cstring.
Variable limit : Z.

Lemma step_invariant t s s' :
  step exact terms t s = Some s' -> invariant limit s -> invariant limit s'.
Proof.
  intros Hstep [Hsem Hcount Hmain Hws]. destruct t as [|i]; cbn [step] in Hstep.
  - destruct (main_thread s) as [|e prog] eqn:Eprog; [discriminate|].
    destruct Hmain as [Hwp | (f & rest & [= -> ->] & Hrest)].
    + revert Hcount.
      inversion Hwp as [|e' prog' Hq Hprog|f prog' Hprog]; subst;
        intros Hcount.
      * pose proof (walker_prog_pending _ Hprog) as Hp.
        assert (Hp0 : pending (e :: prog) = 0) by (destruct e; auto; discriminate).
        rewrite Hp0 in Hcount.
        destruct e; try discriminate Hq; cbn [effect] in Hstep;
          injection Hstep as <-; split; cbn; try (left; assumption);
          auto; unfold slots_held in *; cbn; lia.
      * cbn [effect sem] in Hstep.
        destruct (0 <? sem s) eqn:Epos; [|discriminate].
        apply Z.ltb_lt in Epos. injection Hstep as <-.
        cbn [pending] in Hcount.
        split; cbn; auto; [lia | unfold slots_held in *; cbn; lia |].
        right. eauto.
    + cbn [effect] in Hstep. injection Hstep as <-.
      cbn [pending] in Hcount.
      pose proof (walker_prog_pending _ Hrest) as Hp.
      split; cbn; auto.
      * unfold slots_held in *; cbn [workers].
        rewrite filter_app_length by apply analyze_file_holds_slot. lia.
      * left; assumption.
      * apply Forall_app; split; [assumption|].
        constructor; [apply analyze_file_prog | constructor].
  - destruct (nth_error (workers s) i) as [[|e prog]|] eqn:Ei;
      try discriminate.
    pose proof (proj1 (Forall_forall _ _) Hws _ (nth_error_In _ _ Ei)) as Hw.
    pose proof (set_nth_filter_length holds_slot i _ prog _ Ei) as Hlen.
    revert Hcount.
    inversion Hw as [r prog' Hprog| | |]; subst; intros Hcount;
      cbn [effect] in Hstep;
      injection Hstep as <-;
      split; cbn [sem main_thread workers stdout]; auto;
      try (apply set_nth_Forall; [|assumption]; auto using searcher_prog);
      unfold slots_held, holds_slot in *;
      cbn [sem main_thread workers stdout existsb is_SemPost orb Z.b2z]
        in *; lia.
Qed.

Lemma run_invariant schedule s s' :
  run exact terms schedule s = Some s' ->
  invariant limit s -> invariant limit s'.
Proof.
  revert s; induction schedule as [|t rest IH]; intros s; cbn [run].
  - intros [= <-]; auto.
  - destruct (step exact terms t s) as [s1|] eqn:E; [|discriminate].
    intros Hrun Hinv. eapply IH; [exact Hrun|].
    eapply step_invariant; eassumption.
Qed.

Lemma init_invariant path n :
  0 <= limit -> invariant limit (init limit (ls path n)).
Proof.
  intros Hk. pose proof (ls_walker_prog n path) as Hwp.
  split; cbn; auto.
  - rewrite (walker_prog_pending _ Hwp). unfold slots_held; cbn. lia.
  - left; assumption.
Qed.

End MachineFacts.

(** ** From a whole-word occurrence to a matching word *)

Lemma delim_tolower (c : ascii) :
  in_set delimit (tolower c) = in_set delimit c.
Proof.
  destruct c as [[|] [|] [|] [|] [|] [|] [|] [|]]; vm_compute; reflexivity.
Qed.

Lemma strspn_app (p x d : cstring) :
  Forall (fun c => in_set d c = true) p ->
  match x with [] => True | c :: _ => in_set d c = false end ->
  strspn (p ++ x) d = length p.
Proof.
  intros Hp Hx. induction Hp as [|c p Hc _ IH]; cbn [app strspn].
  - destruct x as [|c r]; [reflexivity|]. cbn [strspn]. rewrite Hx.
    reflexivity.
  - rewrite Hc, IH. reflexivity.
Qed.

Lemma strcspn_app (w post d : cstring) :
  Forall (fun c => in_set d c = false) w ->
  match post with [] => True | c :: _ => in_set d c = true end ->
  strcspn (w ++ post) d = length w.
Proof.
  intros Hw Hpost. induction Hw as [|c w Hc _ IH]; cbn [app strcspn].
  - destruct post as [|c r]; [reflexivity|]. cbn [strcspn]. rewrite Hpost.
    reflexivity.
  - rewrite Hc, IH. reflexivity.
Qed.

Lemma boundary_after_head (post : cstring) :
  boundary_after post = true ->
  match post with [] => True | c :: _ => in_set delimit c = true end.
Proof. destruct post; simpl; auto. Qed.

(** A run without delimiters between delimiters is the next token. *)
Lemma strtok_r_intro (p w post : cstring) :
  Forall (fun c => in_set delimit c = true) p ->
  w <> [] ->
  Forall (fun c => in_set delimit c = false) w ->
  boundary_after post = true ->
  strtok_r (p ++ w ++ post) delimit = Some (w, tl post).
Proof.
  intros Hp Hne Hw Hpost. unfold strtok_r.
  rewrite strspn_app; auto.
  2:{ destruct w as [|c r]; [contradiction|]. inversion Hw; auto. }
  rewrite skipn_app, Nat.sub_diag, skipn_all, skipn_O. cbn [app].
  destruct (w ++ post) as [|c r] eqn:E.
  { destruct w; [contradiction | discriminate]. }
  rewrite <- E. cbv zeta.
  rewrite strcspn_app;
    [|exact Hw|apply boundary_after_head; exact Hpost].
  rewrite skipn_app, Nat.sub_diag, skipn_all, skipn_O. cbn [app].
  rewrite firstn_app, Nat.sub_diag, firstn_all, firstn_O, app_nil_r.
  destruct post; reflexivity.
Qed.

Lemma strtok_r_none (s : cstring) :
  strtok_r s delimit = None ->
  Forall (fun c => in_set delimit c = true) s.
Proof.
  unfold strtok_r. intros H.
  destruct (strspn_spec s delimit) as [Hpre _].
  pose proof (firstn_skipn (strspn s delimit) s) as Hs.
  destruct (skipn (strspn s delimit) s) as [|c r] eqn:E.
  - rewrite app_nil_r in Hs. rewrite <- Hs. exact Hpre.
  - cbv zeta in H. destruct (skipn _ (c :: r)); discriminate.
Qed.

Lemma bounded_no_delims (b : bool) (w : cstring) :
  w <> [] -> Forall (fun c => in_set delimit c = false) w ->
  bounded b w = false.
Proof.
  intros Hne Hw. revert b. induction Hw as [|c w Hc Hw IH]; intros b;
    [contradiction|].
  cbn [bounded]. unfold is_delim. rewrite Hc.
  destruct w as [|c' w']; [reflexivity|]. apply IH. discriminate.
Qed.

(** A text that ends at a boundary is made of delimiters only, or starts
    (after delimiters) with a token that ends inside it. *)
Lemma first_token_split (pre : cstring) :
  bounded true pre = true ->
  Forall (fun c => in_set delimit c = true) pre \/
  exists d w0 c pre',
    pre = d ++ w0 ++ c :: pre' /\
    Forall (fun c => in_set delimit c = true) d /\
    w0 <> [] /\
    Forall (fun c => in_set delimit c = false) w0 /\
    in_set delimit c = true /\
    bounded true pre' = true.
Proof.
  intros Hb.
  destruct (strspn_spec pre delimit) as [Hd Hhd].
  pose proof (firstn_skipn (strspn pre delimit) pre) as Hs.
  destruct (skipn (strspn pre delimit) pre) as [|x r] eqn:E.
  { left. rewrite app_nil_r in Hs. rewrite <- Hs. exact Hd. }
  right.
  destruct (strcspn_spec (x :: r) delimit) as [Hw Hnext].
  pose proof (firstn_skipn (strcspn (x :: r) delimit) (x :: r)) as Hs1.
  assert (Hne : firstn (strcspn (x :: r) delimit) (x :: r) <> []).
  { cbn [strcspn]. rewrite Hhd. discriminate. }
  destruct (skipn (strcspn (x :: r) delimit) (x :: r)) as [|c pre'] eqn:E2.
  - exfalso. rewrite app_nil_r in Hs1. rewrite Hs1 in Hne, Hw.
    rewrite <- Hs, bounded_app, bounded_no_delims in Hb; auto.
    discriminate.
  - exists (firstn (strspn pre delimit) pre),
           (firstn (strcspn (x :: r) delimit) (x :: r)), c, pre'.
    rewrite Hs1, Hs. repeat split; auto.
    rewrite <- Hs, <- Hs1 in Hb.
    rewrite !bounded_app in Hb. cbn [bounded] in Hb. unfold is_delim in Hb.
    rewrite Hnext in Hb. exact Hb.
Qed.

(** A run without delimiters that sits between two boundaries is one of
    the words of the line. *)
Lemma words_intro (w post : cstring) :
  w <> [] ->
  Forall (fun c => in_set delimit c = false) w ->
  boundary_after post = true ->
  forall pre, bounded true pre = true -> In w (words (pre ++ w ++ post)).
Proof.
  intros Hne Hw Hpost pre.
  remember (length pre) as n eqn:Hn. revert pre Hn.
  induction n as [n IH] using (well_founded_induction Wf_nat.lt_wf).
  intros pre -> Hb.
  destruct (first_token_split pre Hb)
    as [Hall | (d & w0 & c & pre' & -> & Hd & Hne0 & Hw0 & Hc & Hb')].
  - rewrite words_eq, strtok_r_intro by assumption. left; reflexivity.
  - rewrite words_eq. rewrite <- !app_assoc. cbn [app].
    rewrite (strtok_r_intro d w0 (c :: pre' ++ w ++ post)) by assumption.
    right. cbn [tl]. eapply IH; [|reflexivity|exact Hb'].
    rewrite !length_app. cbn [Datatypes.length]. lia.
Qed.

Lemma occurs_from_elim (exact : bool) (t s : cstring) (b : bool) :
  occurs_from exact t b s = true ->
  exists pre w post,
    s = pre ++ w ++ post /\
    bounded b pre = true /\
    same_word exact w t = true /\
    boundary_after post = true.
Proof.
  revert b; induction s as [|c r IH]; intros b; cbn [occurs_from];
    rewrite orb_true_iff, !andb_true_iff.
  - intros [[[Hb Hw] Hp] | H]; [|discriminate].
    exists [], (firstn (length t) []), (skipn (length t) []).
    rewrite firstn_skipn. auto.
  - intros [[[Hb Hw] Hp] | H].
    + exists [], (firstn (length t) (c :: r)), (skipn (length t) (c :: r)).
      rewrite firstn_skipn. auto.
    + destruct (IH _ H) as (pre & w & post & -> & Hb & Hw & Hp).
      exists (c :: pre), w, post. auto.
Qed.

(** Words that are equal under the case mode hold delimiters at the same
    places. *)
Lemma same_word_no_delims (exact : bool) (w t : cstring) :
  same_word exact w t = true ->
  Forall (fun c => in_set delimit c = false) t ->
  Forall (fun c => in_set delimit c = false) w.
Proof.
  unfold same_word. destruct exact; rewrite eqb_cstring_eq.
  - intros ->; auto.
  - revert t; induction w as [|x w IH]; intros [|y t]; cbn [map];
      try discriminate; [constructor|].
    intros [= Hxy Hrest] Ht. inversion Ht as [|? ? Hy Ht']; subst.
    constructor; [|eapply IH; eassumption].
    rewrite <- delim_tolower, Hxy, delim_tolower. exact Hy.
Qed.

(** A line in which a term (not empty, without NUL and delimiters) occurs
    as a whole word has a word that compares equal to this term. *)
Lemma occurs_line_matches (exact : bool) (terms : list cstring)
      (t line : cstring) :
  In t terms -> t <> [] -> no_NUL t ->
  Forall (fun c => in_set delimit c = false) t ->
  no_NUL line ->
  occurs_delimited exact t line = true ->
  line_matches exact terms line = true.
Proof.
  intros Hin Hne Hnul Hdel Hline. unfold occurs_delimited.
  rewrite (c_str_id _ Hnul). intros Hocc.
  destruct (occurs_from_elim _ _ _ _ Hocc)
    as (pre & w & post & -> & Hb & Hw & Hp).
  pose proof (same_word_length _ _ _ Hw) as Hlen.
  assert (Hwne : w <> []) by (destruct w, t; simpl in *; congruence).
  pose proof (same_word_no_delims _ _ _ Hw Hdel) as Hwdel.
  unfold line_matches. apply existsb_exists. exists w. split.
  - apply words_intro; assumption.
  - unfold word_matches. apply existsb_exists. exists t.
    split; [exact Hin|]. apply Z.eqb_eq, compare_same_word.
    rewrite (c_str_id _ Hnul), c_str_id; [exact Hw|].
    unfold no_NUL in *. apply Forall_app in Hline as [_ Hline].
    apply Forall_app in Hline as [Hline _]. exact Hline.
Qed.

(** * The claims *)

(** ** Reporting a line (C1, C4, C6, C9) *)

(** C1 -- the File Searcher reports a line at most once.  The code does
    not: the flag [found] is cleared after every word (line 151), so the
    line "the cat sat" is written once for the word "the" and once more
    for the word "cat". *)
Theorem matched_line_written_twice :
  analyze_file false [lit "the"; lit "cat"] a_txt =
  [ Stdout (lit "/root/a.txt:1:the cat sat" ++ [newline; newline]);
    Stdout (lit "/root/a.txt:1:the cat sat" ++ [newline; newline]);
    SemPost; Fclose ].
Proof. vm_compute. reflexivity. Qed.

(** The part of C1 that holds: a repeated term does not repeat the line,
    since the [for] loop is left at the first term that compares equal. *)
Lemma repeated_term_writes_once (exact : bool) (terms : list cstring)
      (word hit : cstring) :
  (length (fst (term_loop exact terms word false hit)) <= 1)%nat.
Proof.
  rewrite term_loop_fresh.
  destruct (word_matches exact terms word); simpl; lia.
Qed.

(** C9 -- the comparison is byte-exact in exact mode and ignores case
    otherwise: it yields 0 exactly when the two C strings are equal, resp.
    equal after [tolower]; so "The", "THE" and "the" all match the term
    "the" without [-e], and only "the" does with [-e]. *)
Theorem compare_by_mode (word term : cstring) :
  (compare true word term = 0 <-> c_str word = c_str term) /\
  (compare false word term = 0 <->
     map tolower (c_str word) = map tolower (c_str term)) /\
  map (word_matches false [lit "the"]) [lit "The"; lit "THE"; lit "the"]
    = [true; true; true] /\
  map (word_matches true [lit "the"]) [lit "The"; lit "THE"; lit "the"]
    = [false; false; true].
Proof.
  split; [apply strcmp_0|]. split; [apply strcasecmp_0|].
  split; vm_compute; reflexivity.
Qed.

Lemma existsb_false_filter {A} (f : A -> bool) (l : list A) :
  existsb f l = false -> filter f l = [].
Proof.
  induction l as [|x l IH]; [reflexivity|]. cbn [existsb filter].
  destruct (f x); [discriminate | exact IH].
Qed.

Lemma filter_nil_existsb {A} (f : A -> bool) (l : list A) :
  filter f l = [] -> existsb f l = false.
Proof.
  induction l as [|x l IH]; [reflexivity|]. cbn [existsb filter].
  destruct (f x); [discriminate | exact IH].
Qed.

(** What a turn of the loop writes, in terms of the words of its line. *)
Lemma iteration_out exact terms ptest stream it :
  In it (file_loop exact terms ptest stream 0 false) ->
  it_out it =
  map (fun _ => Stdout (match_record ptest (it_num it) (c_str (it_buf it))))
      (filter (word_matches exact terms) (words (c_str (it_buf it)))).
Proof.
  intros Hit. apply In_nth_error in Hit. destruct Hit as [k Hk].
  destruct (file_loop_nth _ _ _ _ _ _ _ Hk) as (_ & _ & _ & _ & _ & Hout).
  rewrite Hout. apply word_loop_writes.
Qed.

(** On the lines as they are read (the buffer one call of [fgets] fills,
    a whole line of the file only when the line is shorter than 99
    bytes): if no term occurs in the buffer as a whole word, the turn of
    the loop that read it writes nothing. *)
Theorem substring_only_never_reported
        (exact : bool) (terms : list cstring) (ptest : option cstring)
        (stream : list ascii) (it : iteration) :
  In it (file_loop exact terms ptest stream 0 false) ->
  existsb (fun t => occurs_delimited exact t (c_str (it_buf it))) terms
    = false ->
  it_out it = [].
Proof.
  intros Hit Hnone. rewrite (iteration_out _ _ _ _ _ Hit).
  destruct (line_matches exact terms (c_str (it_buf it))) eqn:Hm.
  - destruct (line_matches_occurs _ _ _ (c_str_no_NUL _) Hm)
      as (t & Ht & Hocc).
    assert (existsb (fun t => occurs_delimited exact t (c_str (it_buf it)))
                    terms = true) as Habs
        by (apply existsb_exists; eauto).
    congruence.
  - unfold line_matches in Hm. rewrite (existsb_false_filter _ _ Hm).
    reflexivity.
Qed.

Lemma substring_only_never_reported_witness :
  let it := mkIteration 0 (lit "theme park" ++ [newline]) [] in
  it_buf it = lit "theme park" ++ [newline] /\ it_out it = [].
Proof.
  split; [reflexivity|].
  apply (substring_only_never_reported false [lit "the"; lit "cat"]
           (recover_filename b_txt) (f_stream b_txt)).
  - vm_compute. left. reflexivity.
  - vm_compute. reflexivity.
Defined.

(** X19 -- The other direction, for terms as they are typed on the
    command line (not empty, without NUL and delimiters): a line in which
    such a term occurs as a whole word is reported by the turn that read
    it. *)
Lemma whole_word_line_reported
      (exact : bool) (terms : list cstring) (ptest : option cstring)
      (stream : list ascii) (it : iteration) (t : cstring) :
  In it (file_loop exact terms ptest stream 0 false) ->
  In t terms -> t <> [] -> no_NUL t ->
  Forall (fun c => in_set delimit c = false) t ->
  occurs_delimited exact t (c_str (it_buf it)) = true ->
  it_out it <> [].
Proof.
  intros Hit Hin Hne Hnul Hdel Hocc.
  pose proof (occurs_line_matches exact terms t _ Hin Hne Hnul Hdel
                (c_str_no_NUL _) Hocc) as Hm.
  rewrite (iteration_out _ _ _ _ _ Hit). unfold line_matches in Hm.
  intros Hnil. apply map_eq_nil, filter_nil_existsb in Hnil. congruence.
Qed.

Example occurs_delimited_examples :
  map (occurs_delimited false (lit "the"))
      [lit "the"; lit "say The-word"; lit "(the)"; lit "theme park";
       lit "bathe"; lit "a lathe, the end"]
    = [true; true; true; false; false; true] /\
  occurs_delimited true (lit "the") (lit "say The-word") = false.
Proof. split; vm_compute; reflexivity. Qed.

(** A line that does not fit the buffer: [fgets] returns its first
    [k] bytes and leaves the others for the next call. *)
Lemma fgets_read_long (k : nat) (line tail : list ascii) :
  ~ In newline line -> (k <= length line)%nat ->
  fgets_read k (line ++ tail) = (firstn k line, skipn k line ++ tail).
Proof.
  revert line; induction k as [|k IH]; intros line Hno Hlen.
  - reflexivity.
  - destruct line as [|c r]; [simpl in Hlen; lia|].
    cbn [app fgets_read firstn skipn].
    destruct (Ascii.eqb_spec c newline) as [->|Hc].
    + contradiction Hno. left; reflexivity.
    + rewrite IH; [reflexivity | | simpl in Hlen; lia].
      intros H. apply Hno. right; exact H.
Qed.

(** C5 -- the file is read in chunks of at most 100 bytes, terminator
    included: the chunks are consecutive pieces of the file that end at a
    newline, at the 99th byte or at the end of the file; the first chunk
    has line number 0 and every further chunk one more (as long as the
    [int] counter has not run over); and a physical line of 99 bytes or
    more is split, its first 99 bytes being line [0] and the rest being
    read as the following lines. *)
Theorem file_read_in_chunks
        (exact : bool) (terms : list cstring) (ptest : option cstring)
        (stream : list ascii) :
  let turns := file_loop exact terms ptest stream 0 false in
  List.concat (map it_buf turns) = stream /\
  (forall k it,
      nth_error turns k = Some it ->
      (1 <= length (it_buf it))%nat /\
      (length (it_buf it) + 1 <= line_sz)%nat /\
      (Z.of_nat k < 2 ^ 31 -> it_num it = Z.of_nat k) /\
      exists pre rest,
        stream = pre ++ it_buf it ++ rest /\
        ((exists body, it_buf it = body ++ [newline] /\ ~ In newline body) \/
         (~ In newline (it_buf it) /\
          (length (it_buf it) = 99%nat \/ rest = [])))) /\
  (forall line rest,
      stream = line ++ newline :: rest ->
      ~ In newline line -> (99 <= length line)%nat ->
      exists out,
        turns = mkIteration 0 (firstn 99 line) out
                  :: file_loop exact terms ptest
                       (skipn 99 line ++ newline :: rest) 1 false).
Proof.
  cbv zeta. split; [apply file_loop_concat|]. split.
  - intros k it Hk.
    destruct (file_loop_nth _ _ _ _ _ _ _ Hk)
      as (pre & rest & Hs & Hf & Hn & _).
    destruct (fgets_spec _ _ _ Hf) as (_ & Hlen & Hend).
    split; [lia|]. split; [unfold line_sz; lia|]. split.
    + intros Hsmall. rewrite Hn, line_num_after_0.
      apply int_wrap_small. lia.
    + exists pre, rest. split; assumption.
  - intros line rest -> Hno Hlen.
    rewrite file_loop_eq.
    assert (Hf : fgets line_sz (line ++ newline :: rest) =
                 Some (firstn 99 line, skipn 99 line ++ newline :: rest)).
    { destruct line as [|c r]; [simpl in Hlen; lia|].
      unfold fgets. cbn [app]. change (line_sz - 1)%nat with 99%nat.
      change (c :: r ++ newline :: rest) with ((c :: r) ++ newline :: rest).
      rewrite fgets_read_long by assumption. reflexivity. }
    rewrite Hf. cbv zeta. rewrite word_loop_flag. eexists. reflexivity.
Qed.

Lemma file_read_in_chunks_witness :
  map (fun it => (it_num it, length (it_buf it)))
      (file_loop false [lit "the"] None long_stream 0 false)
    = [(0, 99%nat); (1, 22%nat); (2, 8%nat)] /\
  it_num (mkIteration 1 (repeat "x"%char 21 ++ [newline]) []) = 1.
Proof.
  split; [vm_compute; reflexivity|].
  pose proof (file_read_in_chunks false [lit "the"] None long_stream) as H.
  cbv zeta in H. destruct H as (_ & H & _).
  refine (proj1 (proj2 (proj2
            (H 1%nat (mkIteration 1 (repeat "x"%char 21 ++ [newline]) []) _)))
            _).
  - vm_compute. reflexivity.
  - vm_compute. reflexivity.
Defined.

(** C4 -- a line in which a term occurs only inside a longer token is
    never reported.  The code breaks this for a line of 99 bytes or more:
    [fgets] cuts the line after its 99th byte, and the end of the buffer
    bounds what comes before it.  In [long_txt] the only line holds "the"
    nowhere but inside "theme" (the words of the line are the letters,
    "theme" and "park"), yet its first 99 bytes end in " the" and are
    reported for the term "the". *)
Theorem long_line_reported_for_part_of_token :
  f_stream long_txt = long_line ++ [newline] /\
  words long_line = [repeat "x"%char 95; lit "theme"; lit "park"] /\
  occurs_delimited false (lit "the") long_line = false /\
  analyze_file false [lit "the"] long_txt =
  [ Stdout (lit "/root/long.txt:0:" ++ repeat "x"%char 95 ++ lit " the"
              ++ [newline]);
    SemPost; Fclose ].
Proof. repeat split; vm_compute; reflexivity. Qed.

(** The lines the matcher sees are the chunks: where the 99th byte of a
    long physical line falls inside a token, the end of the chunk bounds
    the part before it.  In [cut_token_stream] the first chunk ends in
    " the", cut out of "theme", and is reported for the term "the". *)
Lemma chunk_end_bounds_a_word :
  map (fun it => (it_num it, length (it_buf it), length (it_out it)))
      (file_loop false [lit "the"] None cut_token_stream 0 false)
    = [(0, 99%nat, 1%nat); (1, 8%nat, 0%nat)].
Proof. vm_compute. reflexivity. Qed.

(** C6, as stated, fails: the format of line 145 ends in a newline of its
    own, so the record for the line "the" of [c.txt] is
    "/root/c.txt:0:the", the newline of the line and one more newline; the
    string the claim describes is not what is written. *)
Lemma match_record_second_newline :
  analyze_file true [lit "the"] c_txt
    = [Stdout (lit "/root/c.txt:0:the" ++ [newline; newline]);
       SemPost; Fclose] /\
  ~ In (Stdout (lit "/root/c.txt:0:the" ++ [newline]))
       (analyze_file true [lit "the"] c_txt).
Proof.
  split; [vm_compute; reflexivity|].
  vm_compute. intros [H|[H|[H|[]]]]; discriminate H.
Qed.

(** C6, amended -- whatever a turn of the loop writes is the record
    [<name>:<line_num>:<line>] followed by one newline, where [<name>] is
    the recovered file name, [<line_num>] the counter in decimal and
    [<line>] the text as read, its own newline included; and the turn
    writes such a record exactly when a word of the line compares equal
    to a term. *)
Theorem match_record_format
        (exact : bool) (terms : list cstring) (file : FILE)
        (it : iteration) :
  In it (file_loop exact terms (recover_filename file) (f_stream file)
           0 false) ->
  (forall e,
      In e (it_out it) ->
      e = Stdout (fmt_s (recover_filename file) ++ lit ":"
                    ++ fmt_d (it_num it) ++ lit ":"
                    ++ c_str (it_buf it) ++ [newline])) /\
  (line_matches exact terms (c_str (it_buf it)) = true <-> it_out it <> []).
Proof.
  intros Hit. rewrite (iteration_out _ _ _ _ _ Hit). split.
  - intros e He. apply in_map_iff in He. destruct He as (_ & <- & _).
    reflexivity.
  - unfold line_matches. split.
    + intros Hm Hnil. apply map_eq_nil, filter_nil_existsb in Hnil.
      congruence.
    + intros Hne.
      destruct (existsb _ (words (c_str (it_buf it)))) eqn:Hm;
        [reflexivity|].
      rewrite (existsb_false_filter _ _ Hm) in Hne. contradiction Hne.
      reflexivity.
Qed.

Lemma match_record_format_witness :
  let it := mkIteration 0 (lit "the" ++ [newline])
              [Stdout (lit "/root/c.txt:0:the" ++ [newline; newline])] in
  In it (file_loop true [lit "the"] (recover_filename c_txt)
           (f_stream c_txt) 0 false) /\
  (line_matches true [lit "the"] (c_str (it_buf it)) = true <->
   it_out it <> []).
Proof.
  cbv zeta.
  assert (Hin : In (mkIteration 0 (lit "the" ++ [newline])
                      [Stdout (lit "/root/c.txt:0:the" ++ [newline; newline])])
                   (file_loop true [lit "the"] (recover_filename c_txt)
                      (f_stream c_txt) 0 false))
    by (vm_compute; left; reflexivity).
  split; [exact Hin|].
  exact (proj2 (match_record_format true [lit "the"] c_txt _ Hin)).
Defined.

(** ** The walk (C2, C10) *)

(** C2 -- a path that is a directory and can be opened is never opened and
    searched as a text file.  The code does both: line 195 only asks
    whether [stat] succeeded, so the directory [sub] is opened, a slot is
    taken and a searcher thread is created for its handle, and then the
    walk recurses into it as well. *)
Theorem directory_opened_and_searched :
  ls (lit "/root") root_with_subdir =
  [ Opendir (lit "/root");
    Stat (lit "/root/sub"); Fopen (lit "/root/sub");
    SemWait; PthreadCreate dir_handle;
    Opendir (lit "/root/sub"); Closedir (lit "/root/sub");
    Closedir (lit "/root") ].
Proof. vm_compute. reflexivity. Qed.

(** The same for every directory entry that [fopen] accepts. *)
Lemma visit_openable_directory (path d_name : cstring) (f : FILE)
      (od : option (list (cstring * node))) :
  is_dot d_name = false ->
  let buffer := path ++ SEPARATOR ++ d_name in
  visit ls path (d_name, Node (Some true) (Some f) od) =
  [Stat buffer; Fopen buffer; SemWait; PthreadCreate f]
    ++ ls buffer (Node (Some true) (Some f) od).
Proof. intros Hd. unfold visit. rewrite Hd. reflexivity. Qed.

(** C10 -- an entry whose [stat] fails is skipped silently: between the
    events of the entries before it and those of the entries after it,
    the walk performs the [stat] call and nothing else (no diagnostic, no
    [fopen], no slot, no thread, no recursion); for [.] and [..] not even
    that. *)
Theorem stat_failure_skips_entry
        (path d_name : cstring) (st : option bool) (fo fo' : option FILE)
        (od' : option (list (cstring * node)))
        (before after : list (cstring * node)) :
  ls path (Node st fo (Some (before ++ (d_name, Node None fo' od') :: after)))
  = Opendir path
      :: flat_map (visit ls path) before
      ++ (if is_dot d_name then []
          else [Stat (path ++ SEPARATOR ++ d_name)])
      ++ flat_map (visit ls path) after
      ++ [Closedir path].
Proof.
  cbn [ls]. rewrite flat_map_app. cbn [flat_map].
  rewrite <- !app_assoc. reflexivity.
Qed.

(** ** The limit on running searchers (C3) *)

(** C3, as stated, fails: with the limit 1, two searchers hold an open
    handle at the same instant, because [sem_post] (line 160) comes before
    [fclose] (line 161). *)
Lemma handles_exceed_limit :
  exists s,
    run false [lit "the"; lit "cat"] overlap_schedule
        (init 1 (ls (lit "/root") two_files)) = Some s /\
    workers s = [[Fclose];
                 [Stdout (lit "/root/b.txt:1:cat nap" ++ [newline; newline]);
                  SemPost; Fclose]] /\
    handles_open s = 2%nat /\
    ~ Z.of_nat (handles_open s) <= 1.
Proof.
  eexists. split; [vm_compute; reflexivity|].
  split; [reflexivity|]. split; [reflexivity|]. cbn. lia.
Qed.

Lemma writes_only_map (evs : list event) :
  (forall e, In e evs -> exists r, e = Stdout r) ->
  exists writes, evs = map Stdout writes.
Proof.
  induction evs as [|e evs IH]; intros H; [exists []; reflexivity|].
  destruct (H e (or_introl eq_refl)) as [r ->].
  destruct IH as [ws ->]; [intros e' He'; apply H; right; exact He'|].
  exists (r :: ws). reflexivity.
Qed.

(** C3, amended -- at no instant do more than [limit] searchers hold a
    slot: the walk takes a slot right before it creates each searcher
    (the shape [walker_prog]), a searcher gives it back when its scan is
    done, and only then closes its handle. *)
Theorem slots_never_exceed_limit
        (exact : bool) (terms : list cstring) (limit : Z)
        (path : cstring) (n : node) (schedule : list thread_id)
        (s : mstate) :
  0 <= limit ->
  run exact terms schedule (init limit (ls path n)) = Some s ->
  Z.of_nat (slots_held s) <= limit /\
  walker_prog (ls path n) /\
  forall f, exists writes,
      analyze_file exact terms f = map Stdout writes ++ [SemPost; Fclose].
Proof.
  intros Hlimit Hrun.
  pose proof (run_invariant _ _ _ _ _ _ Hrun
                (init_invariant limit path n Hlimit)) as [Hsem Hcount Hmain _].
  split; [|split].
  - assert (0 <= pending (main_thread s))
      by (unfold pending; destruct (main_thread s) as [|[] ?]; lia).
    lia.
  - apply ls_walker_prog.
  - intros f. unfold analyze_file. cbv zeta.
    destruct (writes_only_map _
                (file_loop_writes_only exact terms (recover_filename f)
                   (f_stream f) 0)) as [ws ->].
    exists ws. reflexivity.
Qed.

Lemma slots_never_exceed_limit_witness :
  exists s,
    run false [lit "the"; lit "cat"] overlap_schedule
        (init 1 (ls (lit "/root") two_files)) = Some s /\
    Z.of_nat (slots_held s) <= 1.
Proof.
  eexists. split; [vm_compute; reflexivity|].
  refine (proj1 (slots_never_exceed_limit false [lit "the"; lit "cat"] 1
                   (lit "/root") two_files overlap_schedule _ _ _)).
  - lia.
  - vm_compute. reflexivity.
Defined.

(** ** The entry point (C7, C8) *)

Section MainFacts.

Variable argv0 : cstring.
Variable num_cores : Z.

(** The options that let the loop go on write nothing. *)
Lemma getopt_loop_continue opts g ev g' :
  getopt_loop argv0 num_cores opts g = (ev, Continue g') -> ev = [].
Proof.
  revert g; induction opts as [|c rest IH]; intros g; cbn [getopt_loop].
  - intros [= <- _]; reflexivity.
  - destruct c; try discriminate; try apply IH.
    destruct (_ || _); [discriminate | apply IH].
Qed.

Lemma getopt_loop_app pre post g g' :
  snd (getopt_loop argv0 num_cores pre g) = Continue g' ->
  getopt_loop argv0 num_cores (pre ++ post) g =
  getopt_loop argv0 num_cores post g'.
Proof.
  revert g; induction pre as [|c rest IH]; intros g;
    cbn [getopt_loop app].
  - intros [= ->]; reflexivity.
  - destruct c; try discriminate; try apply IH.
    destruct (_ || _); [discriminate | apply IH].
Qed.

End MainFacts.

(** C7, as stated, fails: after the diagnostic, [ls] returns to [main],
    which ends with [pthread_exit(0)] (line 283); the exit status of the
    process is 0. *)
Lemma unreadable_root_exit_status :
  main (lit "prep") 4 [Opt_d (lit "/nowhere")] (lit "/home") unreadable
    = ([SemInit 4; Stdout (lit "dir is: /nowhere" ++ [newline]);
        Opendir (lit "/nowhere"); Perror],
       PthreadExit) /\
  exit_status
    (snd (main (lit "prep") 4 [Opt_d (lit "/nowhere")] (lit "/home")
            unreadable)) = Some 0.
Proof. split; vm_compute; reflexivity. Qed.

(** C7, amended -- if the start directory cannot be opened for listing,
    the program writes the line "dir is: ..." to the standard output,
    emits exactly one diagnostic, creates no searcher (so no match is
    written), and its exit status is 0. *)
Theorem unreadable_root
        (argv0 : cstring) (num_cores : Z) (opts : list getopt_result)
        (cwd : cstring) (fs : cstring -> node) (g : config) :
  snd (getopt_loop argv0 num_cores opts (mkConfig None false num_cores))
    = Continue g ->
  let dir := match g_search_dir g with
             | None => cwd
             | Some d => d
             end in
  opendir_fails (fs dir) = true ->
  main argv0 num_cores opts cwd fs
    = ([SemInit (max_threads g); Stdout (lit "dir is: " ++ dir ++ [newline]);
        Opendir dir; Perror],
       PthreadExit) /\
  exit_status (snd (main argv0 num_cores opts cwd fs)) = Some 0.
Proof.
  intros Hloop dir Hfail. unfold main.
  destruct (getopt_loop argv0 num_cores opts (mkConfig None false num_cores))
    as [ev res] eqn:E.
  cbn [snd] in Hloop. subst res.
  rewrite (getopt_loop_continue _ _ _ _ _ _ E). fold dir.
  destruct (fs dir) as [st fo [entries|]]; [discriminate|].
  split; reflexivity.
Qed.

Lemma unreadable_root_witness :
  exit_status
    (snd (main (lit "prep") 4 [Opt_e; Opt_t (lit "2")] (lit "/home")
            unreadable)) = Some 0.
Proof.
  refine (proj2 (unreadable_root (lit "prep") 4 [Opt_e; Opt_t (lit "2")]
                   (lit "/home") unreadable (mkConfig None true 2) _ _)).
  - vm_compute. reflexivity.
  - vm_compute. reflexivity.
Defined.

(** C8, as stated, fails for a malformed value: [atoi] reads "3abc" as 3,
    and with four processors the program goes on to the traversal. *)
Lemma malformed_thread_count_accepted :
  atoi (lit "3abc") = 3 /\
  main (lit "prep") 4 [Opt_t (lit "3abc")] (lit "/root") empty_root
    = ([SemInit 3; Stdout (lit "dir is: /root" ++ [newline]);
        Opendir (lit "/root"); Closedir (lit "/root")],
       PthreadExit).
Proof. split; vm_compute; reflexivity. Qed.

(** A value that does not start with a number reads as 0. *)
Lemma atoi_not_a_number (s : cstring) :
  match skip_space s with
  | [] => True
  | c :: _ => digit c = None /\ c <> "-"%char /\ c <> "+"%char
  end ->
  atoi s = 0.
Proof.
  unfold atoi, strtol. destruct (skip_space s) as [|c r]; [reflexivity|].
  intros (Hd & Hm & Hp).
  destruct c as [[|] [|] [|] [|] [|] [|] [|] [|]];
    try (exfalso; apply Hm; reflexivity);
    try (exfalso; apply Hp; reflexivity);
    try (vm_compute in Hd; discriminate Hd);
    reflexivity.
Qed.

(** C8, amended -- when option parsing reaches a [-t] whose value [atoi]
    reads as a number below 1 or above the number of processors (a value
    that does not start with a number reads as 0), the program writes its
    message and aborts; nothing of the traversal has happened. *)
Theorem invalid_thread_count_aborts
        (argv0 : cstring) (num_cores : Z) (pre post : list getopt_result)
        (optarg cwd : cstring) (fs : cstring -> node) (g : config) :
  snd (getopt_loop argv0 num_cores pre (mkConfig None false num_cores))
    = Continue g ->
  atoi optarg < 1 \/ atoi optarg > num_cores ->
  main argv0 num_cores (pre ++ Opt_t optarg :: post) cwd fs
    = ([Stdout (lit "You entered an invalid number of theads. "
                  ++ lit "It must be between 1 and " ++ fmt_d num_cores)],
       Abort).
Proof.
  intros Hloop Hbad. unfold main.
  rewrite (getopt_loop_app _ _ _ _ _ _ Hloop). cbn [getopt_loop].
  assert ((atoi optarg <? 1) || (atoi optarg >? num_cores) = true) as ->.
  { apply orb_true_iff. rewrite Z.ltb_lt, Z.gtb_ltb, Z.ltb_lt. lia. }
  reflexivity.
Qed.

Lemma invalid_thread_count_aborts_witness :
  snd (main (lit "prep") 4 ([Opt_e] ++ Opt_t (lit "abc") :: [Opt_h])
         (lit "/root") empty_root) = Abort.
Proof.
  rewrite (invalid_thread_count_aborts (lit "prep") 4 [Opt_e] [Opt_h]
             (lit "abc") (lit "/root") empty_root (mkConfig None true 4)).
  - reflexivity.
  - vm_compute. reflexivity.
  - left. vm_compute. reflexivity.
Defined.

(** * Further properties of the program *)

(** ** The File Searcher *)

Section SearcherMore.

Variable ptest : option cstring.

(** What [fgets] stores and the line numbers do not depend on the mode,
    the terms or the name. *)
Lemma file_loop_chunks_fixed exact terms exact' terms' ptest' stream n :
  map (fun it => (it_num it, it_buf it))
      (file_loop exact terms ptest stream n false) =
  map (fun it => (it_num it, it_buf it))
      (file_loop exact' terms' ptest' stream n false).
Proof.
  revert n.
  induction stream as [stream E | stream buf rest E IH] using fgets_ind;
    intros n; rewrite !file_loop_eq, E; [reflexivity|].
  cbv zeta. cbn [map it_num it_buf]. rewrite !word_loop_flag, IH.
  reflexivity.
Qed.

(** The turns of the loop, one by one: the turn for a chunk writes one
    record for every word of the chunk that compares equal to a term. *)
Lemma file_loop_turns exact terms stream n :
  file_loop exact terms ptest stream n false =
  map (fun it =>
         mkIteration (it_num it) (it_buf it)
           (map (fun _ => Stdout (match_record ptest (it_num it)
                                    (c_str (it_buf it))))
                (filter (word_matches exact terms)
                        (words (c_str (it_buf it))))))
      (file_loop true [] None stream n false).
Proof.
  revert n.
  induction stream as [stream E | stream buf rest E IH] using fgets_ind;
    intros n; rewrite !file_loop_eq, E; [reflexivity|].
  cbv zeta. cbn [map it_num it_buf]. rewrite !word_loop_flag, IH.
  rewrite word_loop_writes. reflexivity.
Qed.

End SearcherMore.

(** Every word handed to the comparison is a piece of text without NUL
    and without delimiter, and is not empty. *)
Lemma words_ok (buf : list ascii) (w : cstring) :
  In w (words (c_str buf)) ->
  w <> [] /\ no_NUL w /\ Forall (fun c => in_set delimit c = false) w.
Proof.
  intros Hin.
  destruct (words_occurrence _ _ Hin) as (pre & post & Hs & _ & _ & Hne & Hw).
  repeat split; auto.
  pose proof (c_str_no_NUL buf) as Hnul. unfold no_NUL in *.
  rewrite Hs in Hnul. apply Forall_app in Hnul as [_ Hnul].
  apply Forall_app in Hnul as [Hnul _]. exact Hnul.
Qed.

(** Two settings that agree on every word of every line give the same
    events. *)
Lemma analyze_file_ext exact terms exact' terms' (f : FILE) :
  (forall w, w <> [] -> no_NUL w ->
             Forall (fun c => in_set delimit c = false) w ->
             word_matches exact terms w = word_matches exact' terms' w) ->
  analyze_file exact terms f = analyze_file exact' terms' f.
Proof.
  intros Hext. unfold analyze_file. cbv zeta. f_equal.
  rewrite (file_loop_turns _ exact terms), (file_loop_turns _ exact' terms').
  f_equal. apply map_ext. intros it. f_equal. f_equal.
  apply filter_ext_in. intros w Hw.
  destruct (words_ok _ _ Hw) as (Hne & Hnul & Hdel). auto.
Qed.


(** X1 -- The events of a searcher depend on the terms as a set: neither the
    order of the terms nor repetitions among them change anything. *)
Theorem terms_as_a_set (exact : bool) (terms terms' : list cstring)
        (f : FILE) :
  (forall t, In t terms <-> In t terms') ->
  analyze_file exact terms f = analyze_file exact terms' f.
Proof.
  intros Hset. apply analyze_file_ext. intros w _ _ _.
  unfold word_matches.
  destruct (existsb _ terms') eqn:E'.
  - apply existsb_exists in E'. destruct E' as (t & Ht & Hc).
    apply existsb_exists. exists t. split; [apply Hset; exact Ht | exact Hc].
  - destruct (existsb _ terms) eqn:E; [|reflexivity].
    apply existsb_exists in E. destruct E as (t & Ht & Hc).
    rewrite <- E'. symmetry. apply existsb_exists. exists t.
    split; [apply Hset; exact Ht | exact Hc].
Qed.

Lemma terms_as_a_set_witness :
  analyze_file false [lit "the"; lit "cat"] a_txt =
  analyze_file false [lit "cat"; lit "the"; lit "cat"] a_txt.
Proof.
  apply terms_as_a_set. intros t. simpl. tauto.
Defined.

Lemma same_word_sym (exact : bool) (a b : cstring) :
  same_word exact a b = true -> same_word exact b a = true.
Proof.
  unfold same_word. destruct exact; rewrite !eqb_cstring_eq; auto.
Qed.

Lemma unmatchable_never_equal (exact : bool) (w t : cstring) :
  w <> [] -> no_NUL w -> Forall (fun c => in_set delimit c = false) w ->
  matchable t = false ->
  (compare exact w t =? 0) = false.
Proof.
  intros Hne Hnul Hdel Hun. apply Z.eqb_neq. intros Hc.
  apply compare_same_word in Hc. rewrite (c_str_id _ Hnul) in Hc.
  pose proof (same_word_length _ _ _ Hc) as Hlen.
  pose proof (same_word_no_delims _ _ _ (same_word_sym _ _ _ Hc) Hdel) as Ht.
  unfold matchable in Hun. destruct (c_str t) as [|c r] eqn:E.
  - destruct w; [contradiction | discriminate].
  - assert (forallb (fun c => negb (in_set delimit c)) (c :: r) = true)
      as Hall; [|congruence].
    apply forallb_forall. intros x Hx.
    rewrite (proj1 (Forall_forall _ _) Ht x Hx). reflexivity.
Qed.

(** X2 -- Terms that are empty or hold a delimiter (such as "a-b" or "don't")
    never match: a searcher behaves as if they had not been given. *)
Theorem unmatchable_terms_ignored (exact : bool) (terms : list cstring)
        (f : FILE) :
  analyze_file exact terms f = analyze_file exact (filter matchable terms) f.
Proof.
  apply analyze_file_ext. intros w Hne Hnul Hdel. unfold word_matches.
  induction terms as [|t ts IH]; [reflexivity|].
  cbn [existsb filter]. destruct (matchable t) eqn:Em.
  - cbn [existsb]. rewrite IH. reflexivity.
  - rewrite (unmatchable_never_equal _ _ _ Hne Hnul Hdel Em). exact IH.
Qed.

Lemma filter_length_le {A} (f g : A -> bool) (l : list A) :
  (forall x, f x = true -> g x = true) ->
  (length (filter f l) <= length (filter g l))%nat.
Proof.
  intros Hfg. induction l as [|x l IH]; [simpl; lia|]. cbn [filter].
  destruct (f x) eqn:Ef.
  - rewrite (Hfg _ Ef). simpl. lia.
  - destruct (g x); simpl; lia.
Qed.

Lemma exact_match_is_match (terms : list cstring) (w : cstring) :
  word_matches true terms w = true -> word_matches false terms w = true.
Proof.
  unfold word_matches. rewrite !existsb_exists. intros (t & Ht & Hc).
  exists t. split; [exact Ht|]. apply Z.eqb_eq. apply Z.eqb_eq in Hc.
  unfold compare in *. apply strcasecmp_0. apply strcmp_0 in Hc.
  rewrite Hc. reflexivity.
Qed.

(** X3 -- [-e] only takes reports away: the searcher reads the same chunks with
    the same line numbers in both modes, and in each turn writes at most
    as many records with [-e] as without. *)
Theorem exact_mode_reports_less (terms : list cstring)
        (ptest : option cstring) (stream : list ascii) (k : nat)
        (it : iteration) :
  nth_error (file_loop true terms ptest stream 0 false) k = Some it ->
  exists it',
    nth_error (file_loop false terms ptest stream 0 false) k = Some it' /\
    it_num it' = it_num it /\ it_buf it' = it_buf it /\
    (length (it_out it) <= length (it_out it'))%nat.
Proof.
  rewrite (file_loop_turns _ true terms), (file_loop_turns _ false terms).
  rewrite !nth_error_map.
  destruct (nth_error (file_loop true [] None stream 0 false) k) as [sk|];
    [|discriminate].
  cbn [option_map]. intros [= <-]. eexists. split; [reflexivity|].
  cbn [it_num it_buf it_out]. repeat split.
  rewrite !length_map. apply filter_length_le. apply exact_match_is_match.
Qed.

Lemma exact_mode_reports_less_witness :
  exists it',
    nth_error (file_loop false [lit "The"] None (f_stream a_txt) 0 false) 1
      = Some it' /\
    (0 <= length (it_out it'))%nat.
Proof.
  destruct (exact_mode_reports_less [lit "The"] None (f_stream a_txt) 1
              (mkIteration 1 (lit "the cat sat" ++ [newline]) []))
    as (it' & H & _ & _ & Hlen).
  - vm_compute. reflexivity.
  - exists it'. split; [exact H | exact Hlen].
Defined.

Lemma fgets_read_short (k : nat) (l rest : list ascii) :
  ~ In newline l -> (length l < k)%nat ->
  fgets_read k (l ++ newline :: rest) = (l ++ [newline], rest).
Proof.
  revert l; induction k as [|k IH]; intros l Hno Hlen; [lia|].
  destruct l as [|c r]; cbn [app fgets_read].
  - rewrite Ascii.eqb_refl. reflexivity.
  - destruct (Ascii.eqb_spec c newline) as [->|Hc].
    + contradiction Hno. left; reflexivity.
    + rewrite IH; [reflexivity| |simpl in Hlen; lia].
      intros H. apply Hno. right; exact H.
Qed.

Lemma fgets_short_line (l rest : list ascii) :
  ~ In newline l -> (length l <= 98)%nat ->
  fgets line_sz ((l ++ [newline]) ++ rest) = Some (l ++ [newline], rest).
Proof.
  intros Hno Hlen. rewrite <- app_assoc. cbn [app].
  unfold fgets. change (line_sz - 1)%nat with 99%nat.
  destruct (l ++ newline :: rest) eqn:E.
  - destruct l; discriminate.
  - rewrite <- E. rewrite fgets_read_short by (auto; lia). reflexivity.
Qed.

Lemma short_lines_turns exact terms ptest (lines : list (list ascii)) :
  Forall (fun l => ~ In newline l /\ (length l <= 98)%nat) lines ->
  forall (k : nat) (n : Z) (l : list ascii),
    nth_error lines k = Some l ->
    exists out,
      nth_error (file_loop exact terms ptest
                   (flat_map (fun l => l ++ [newline]) lines) n false) k
      = Some (mkIteration (line_num_after k n) (l ++ [newline]) out).
Proof.
  induction 1 as [|l0 ls [Hno Hlen] _ IH]; intros k n l Hk.
  - destruct k; discriminate.
  - cbn [flat_map]. rewrite file_loop_eq, fgets_short_line by assumption.
    cbv zeta. rewrite word_loop_flag.
    destruct k as [|k]; cbn [nth_error line_num_after] in *.
    + injection Hk as <-. eexists. reflexivity.
    + apply IH. exact Hk.
Qed.

(** X4 -- A text file whose lines are shorter than 99 bytes is read line by
    line: turn [k] of the loop holds exactly line [k] of the file
    (counted from 0) with its newline, under the line number [k]. *)
Theorem short_lines_read_whole
        (exact : bool) (terms : list cstring) (ptest : option cstring)
        (lines : list (list ascii)) (k : nat) (l : list ascii) :
  Forall (fun l => ~ In newline l /\ (length l <= 98)%nat) lines ->
  nth_error lines k = Some l ->
  Z.of_nat k < 2 ^ 31 ->
  exists out,
    nth_error (file_loop exact terms ptest
                 (flat_map (fun l => l ++ [newline]) lines) 0 false) k
    = Some (mkIteration (Z.of_nat k) (l ++ [newline]) out).
Proof.
  intros Hlines Hk Hsmall.
  destruct (short_lines_turns exact terms ptest lines Hlines k 0 l Hk)
    as [out Hout].
  exists out. rewrite Hout, line_num_after_0, int_wrap_small by lia.
  reflexivity.
Qed.

Lemma short_lines_read_whole_witness :
  exists out,
    nth_error (file_loop false [lit "cat"] None (f_stream b_txt) 0 false) 1
    = Some (mkIteration 1 (lit "cat nap" ++ [newline]) out).
Proof.
  apply (short_lines_read_whole false [lit "cat"] None
           [lit "theme park"; lit "cat nap"] 1 (lit "cat nap")).
  - repeat constructor; simpl; try lia;
      intros H; repeat (destruct H as [H|H]; [discriminate H|]); exact H.
  - reflexivity.
  - lia.
Defined.




(** ** The Directory Walker *)

(** The names the walk skips are exactly [.] and [..]. *)
Lemma is_dot_iff (d_name : cstring) :
  is_dot d_name = true <->
  c_str d_name = lit "." \/ c_str d_name = lit "..".
Proof.
  unfold is_dot. rewrite orb_true_iff, !Z.eqb_eq, !strcmp_0.
  change (c_str (lit "..")) with (lit "..").
  change (c_str (lit ".")) with (lit "."). tauto.
Qed.

(** X5 -- The entries [.] and [..] play no part in the walk, at any depth: the
    walk of a directory is the walk of the directory without them (so the
    walk never steps back to a parent or loops on the directory itself). *)
Theorem dot_entries_ignored
        (path : cstring) (st : option bool) (fo : option FILE)
        (entries : list (cstring * node)) :
  ls path (Node st fo (Some entries)) =
  ls path (Node st fo
             (Some (filter (fun e => negb (is_dot (fst e))) entries))) /\
  forall d_name,
    is_dot d_name = true <->
    c_str d_name = lit "." \/ c_str d_name = lit "..".
Proof.
  split; [|apply is_dot_iff].
  cbn [ls]. do 2 f_equal.
  induction entries as [|[d child] es IH]; [reflexivity|].
  cbn [flat_map filter fst]. unfold visit at 1.
  destruct (is_dot d) eqn:Ed; cbn [negb].
  - exact IH.
  - cbn [flat_map]. unfold visit at 2. rewrite Ed, IH. reflexivity.
Qed.

(** X6 -- A file that cannot be opened costs one diagnostic and nothing else:
    no slot is taken and no thread created for it, the entries after it
    are walked as usual, and if it is a directory the walk still descends
    into it. *)
Theorem fopen_failure_reported
        (path d_name : cstring) (st : option bool) (fo : option FILE)
        (isdir : bool) (od' : option (list (cstring * node)))
        (before after : list (cstring * node)) :
  let buffer := path ++ SEPARATOR ++ d_name in
  ls path
     (Node st fo
        (Some (before ++ (d_name, Node (Some isdir) None od') :: after)))
  = Opendir path
      :: flat_map (visit ls path) before
      ++ (if is_dot d_name then []
          else [Stat buffer; Fopen buffer; Perror]
                 ++ (if isdir then ls buffer (Node (Some isdir) None od')
                     else []))
      ++ flat_map (visit ls path) after
      ++ [Closedir path].
Proof.
  cbv zeta. cbn [ls]. rewrite flat_map_app. cbn [flat_map].
  rewrite <- !app_assoc. reflexivity.
Qed.

(** X7 -- Every path the walk hands to [opendir], [stat] or [fopen] is the
    start path, or the start path followed by [/] and further text: the
    walk builds its paths by appending and never touches a path outside
    these. *)
Theorem walk_stays_below_start (n : node) (path : cstring) (e : event)
        (p : cstring) :
  In e (ls path n) -> event_path e = Some p ->
  p = path \/ exists rest, p = path ++ SEPARATOR ++ rest.
Proof.
  revert path.
  induction n as [st fo | st fo entries IH] using node_tree_ind;
    intros path; cbn [ls].
  - intros [<-|[<-|[]]]; [intros [= <-]; auto | discriminate].
  - intros [<-|Hin]; [intros [= <-]; auto|].
    apply in_app_or in Hin. destruct Hin as [Hin|[<-|[]]];
      [|intros [= <-]; auto].
    intros Hp. right. apply in_flat_map in Hin.
    destruct Hin as ([d child] & Hentry & Hin).
    pose proof (proj1 (Forall_forall _ _) IH _ Hentry) as IHc.
    cbn [snd] in IHc. unfold visit in Hin.
    destruct (is_dot d); [destruct Hin|].
    destruct Hin as [<-|Hin]; [injection Hp as <-; exists d; reflexivity|].
    destruct child as [[isdir|] fo' od']; [|destruct Hin].
    destruct Hin as [<-|Hin]; [injection Hp as <-; exists d; reflexivity|].
    apply in_app_or in Hin. destruct Hin as [Hin|Hin].
    + destruct fo'; cbn [In] in Hin;
        repeat (destruct Hin as [<-|Hin]; [discriminate Hp|]);
        try contradiction.
    + destruct isdir; [|destruct Hin].
      destruct (IHc _ Hin Hp) as [-> | [rest ->]];
        [exists d; reflexivity|].
      exists (d ++ SEPARATOR ++ rest). rewrite <- !app_assoc. reflexivity.
Qed.

Lemma walk_stays_below_start_witness :
  lit "/root/sub" = lit "/root" \/
  exists rest, lit "/root/sub" = lit "/root" ++ SEPARATOR ++ rest.
Proof.
  apply (walk_stays_below_start root_with_subdir (lit "/root")
           (Fopen (lit "/root/sub"))).
  - vm_compute. right. right. left. reflexivity.
  - reflexivity.
Defined.


Lemma eqb_cstring_refl (a : cstring) : eqb_cstring a a = true.
Proof. apply eqb_cstring_eq. reflexivity. Qed.

Lemma open_dirs_opendir (p : cstring) (e : event) (t : list event)
      (stack : list cstring) :
  e <> Perror ->
  open_dirs (Opendir p :: e :: t) stack = open_dirs (e :: t) (p :: stack).
Proof. intros He. destruct e; try reflexivity. contradiction. Qed.

Lemma readdir_head (ls' : cstring -> node -> list event) (path : cstring)
      (entries : list (cstring * node)) (tail : list event) :
  exists e t,
    flat_map (visit ls' path) entries ++ Closedir path :: tail = e :: t /\
    e <> Perror.
Proof.
  induction entries as [|[d child] es IH]; cbn [flat_map app].
  - eexists _, _. split; [reflexivity | discriminate].
  - unfold visit at 1. destruct (is_dot d); [exact IH|].
    cbn [app]. eexists _, _. split; [reflexivity | discriminate].
Qed.

Lemma ls_open_dirs (n : node) :
  forall (path : cstring) (rest : list event) (stack : list cstring),
    open_dirs (ls path n ++ rest) stack = open_dirs rest stack.
Proof.
  induction n as [st fo | st fo entries IH] using node_tree_ind;
    intros path rest stack; cbn [ls app].
  - reflexivity.
  - rewrite <- app_assoc. cbn [app].
    destruct (readdir_head ls path entries rest) as (e & t & Hhd & He).
    rewrite Hhd, open_dirs_opendir by exact He. rewrite <- Hhd. clear Hhd.
    induction IH as [|[d child] es Hchild _ IHes]; cbn [flat_map app].
    + cbn [open_dirs]. rewrite eqb_cstring_refl. reflexivity.
    + rewrite <- app_assoc. unfold visit at 1.
      destruct (is_dot d); [exact IHes|].
      cbn [app open_dirs]. destruct child as [[isdir|] fo' od'];
        cbn [app open_dirs]; [|exact IHes].
      rewrite <- app_assoc.
      assert (Hreach :
        forall tl, open_dirs
          ((if isdir then ls (path ++ SEPARATOR ++ d)
                            (Node (Some isdir) fo' od') else []) ++ tl)
          (path :: stack) = open_dirs tl (path :: stack)).
      { intros tl. destruct isdir; [apply Hchild | reflexivity]. }
      destruct fo'; cbn [app open_dirs]; rewrite Hreach; exact IHes.
Qed.

(** X8 -- The walk closes every directory stream it opened, the innermost one
    first, and closes nothing else: after the walk no stream is open. *)
Theorem walk_closes_its_directories (n : node) (path : cstring) :
  open_dirs (ls path n) [] = Some [].
Proof.
  rewrite <- (app_nil_r (ls path n)). rewrite ls_open_dirs. reflexivity.
Qed.

(** ** Progress and completion of a run *)

Lemma run_app exact terms (a b : list thread_id) (s : mstate) :
  run exact terms (a ++ b) s =
  match run exact terms a s with
  | Some s' => run exact terms b s'
  | None => None
  end.
Proof.
  revert s; induction a as [|t a IH]; intros s; cbn [app run];
    [reflexivity|].
  destruct (step exact terms t s); [apply IH | reflexivity].
Qed.

(** The events of a searcher: writes, then [sem_post] and [fclose]. *)
Lemma analyze_file_shape exact terms (f : FILE) :
  exists writes,
    analyze_file exact terms f = map Stdout writes ++ [SemPost; Fclose].
Proof.
  unfold analyze_file. cbv zeta.
  destruct (writes_only_map _
              (file_loop_writes_only exact terms (recover_filename f)
                 (f_stream f) 0)) as [ws ->].
  exists ws. reflexivity.
Qed.

Lemma analyze_file_cost exact terms (f : FILE) :
  list_sum (map (cost exact terms) (analyze_file exact terms f)) =
  length (analyze_file exact terms f).
Proof.
  destruct (analyze_file_shape exact terms f) as [ws ->].
  rewrite map_app, list_sum_app, length_app. f_equal.
  induction ws as [|w ws IH]; [reflexivity|]. simpl in *. lia.
Qed.


Lemma list_sum_cons (x : nat) (l : list nat) :
  list_sum (x :: l) = (x + list_sum l)%nat.
Proof. reflexivity. Qed.

Lemma set_nth_sum {A} (g : A -> nat) i old new (ws : list A) :
  nth_error ws i = Some old ->
  (list_sum (map g (set_nth i new ws)) + g old =
   list_sum (map g ws) + g new)%nat.
Proof.
  revert i; induction ws as [|w ws IH]; intros [|i]; cbn [nth_error];
    try discriminate.
  - intros [= ->]. simpl. lia.
  - intros H. specialize (IH _ H). simpl in *. lia.
Qed.


Section ProgressFacts.

Variable exact : bool.
Variable terms : list cstring.

(** Every step performs one of the remaining events. *)
Lemma step_remaining t s s' :
  step exact terms t s = Some s' ->
  remaining exact terms s = S (remaining exact terms s').
Proof.
  unfold remaining. destruct t as [|i]; cbn [step].
  - destruct (main_thread s) as [|e prog]; [discriminate|].
    destruct e; cbn [effect sem main_thread workers stdout];
      try (destruct (0 <? sem s); [|discriminate]);
      intros [= <-]; cbn [main_thread workers map];
      rewrite ?map_app, ?list_sum_app, !list_sum_cons; cbn [map cost];
      rewrite ?list_sum_cons, ?analyze_file_cost; cbn [list_sum fold_right];
      lia.
  - destruct (nth_error (workers s) i) as [[|e prog]|] eqn:Ei;
      try discriminate.
    pose proof (set_nth_sum (fun prog => list_sum (map (cost exact terms) prog))
                  i _ prog _ Ei) as Hsum.
    cbn [map] in Hsum. rewrite list_sum_cons in Hsum.
    destruct e; cbn [effect sem main_thread workers stdout];
      try (destruct (0 <? sem s); [|discriminate]);
      intros [= <-]; cbn [main_thread workers map];
      rewrite ?map_app, ?list_sum_app; cbn [map cost] in *;
      rewrite ?list_sum_cons, ?analyze_file_cost; cbn [list_sum fold_right];
      lia.
Qed.

Lemma run_remaining schedule s s' :
  run exact terms schedule s = Some s' ->
  remaining exact terms s = (length schedule + remaining exact terms s')%nat.
Proof.
  revert s; induction schedule as [|t rest IH]; intros s; cbn [run].
  - intros [= <-]. reflexivity.
  - destruct (step exact terms t s) as [s1|] eqn:E; [|discriminate].
    intros H. rewrite (step_remaining _ _ _ E), (IH _ H).
    cbn [Datatypes.length]. lia.
Qed.


End ProgressFacts.

Lemma forallb_false_witness {A} (f : A -> bool) (l : list A) :
  forallb f l = false -> exists x, In x l /\ f x = false.
Proof.
  induction l as [|x l IH]; [discriminate|]. cbn [forallb].
  destruct (f x) eqn:E.
  - intros H. destruct (IH H) as (y & Hy & Hf). exists y. split; auto.
    right; exact Hy.
  - intros _. exists x. split; [left; reflexivity | exact E].
Qed.

Lemma filter_nonempty_witness {A} (f : A -> bool) (l : list A) :
  (1 <= length (filter f l))%nat -> exists x, In x l /\ f x = true.
Proof.
  destruct (filter f l) as [|x r] eqn:E; [simpl; lia|]. intros _.
  assert (In x (filter f l)) as H by (rewrite E; left; reflexivity).
  apply filter_In in H. exists x. exact H.
Qed.

Lemma finished_workers (s : mstate) :
  finished s = true ->
  main_thread s = [] /\ Forall (fun prog => prog = []) (workers s).
Proof.
  unfold finished. destruct (main_thread s); [|discriminate].
  intros H. split; [reflexivity|]. apply Forall_forall. intros p Hp.
  pose proof (proj1 (forallb_forall _ _) H p Hp) as Hf.
  destruct p; [reflexivity | discriminate].
Qed.

Lemma all_empty_filter {A} (h : list A -> bool) (ws : list (list A)) :
  Forall (fun prog => prog = []) ws -> h [] = false -> filter h ws = [].
Proof.
  intros Hall Hh. induction Hall as [|p ps -> _ IH]; [reflexivity|].
  cbn [filter]. rewrite Hh. exact IH.
Qed.

Section CompletionFacts.

Variable exact : bool.
Variable terms : list cstring.
Variable limit : Z.

Lemma worker_can_step (s : mstate) (i : nat) (e : event)
      (prog : list event) :
  nth_error (workers s) i = Some (e :: prog) ->
  searcher_prog (e :: prog) ->
  exists s', step exact terms (Worker i) s = Some s'.
Proof.
  intros Hi Hprog. cbn [step]. rewrite Hi.
  inversion Hprog; subst; cbn [effect]; eexists; reflexivity.
Qed.

Lemma nonempty_worker_steps (s : mstate) (prog : list event) :
  Forall searcher_prog (workers s) ->
  In prog (workers s) -> prog <> [] ->
  exists t s', step exact terms t s = Some s'.
Proof.
  intros Hws Hin Hne. destruct prog as [|e prog]; [contradiction|].
  destruct (In_nth_error _ _ Hin) as [i Hi].
  destruct (worker_can_step s i e prog Hi) as [s' Hs'].
  - exact (proj1 (Forall_forall _ _) Hws _ Hin).
  - exists (Worker i), s'. exact Hs'.
Qed.

Lemma invariant_progress (s : mstate) :
  1 <= limit -> invariant limit s -> finished s = false ->
  exists t s', step exact terms t s = Some s'.
Proof.
  intros Hlimit [Hsem Hcount Hmain Hws] Hfin. unfold finished in Hfin.
  destruct (main_thread s) as [|e prog] eqn:Emain.
  - destruct (forallb_false_witness _ _ Hfin) as (p & Hp & Hne).
    apply (nonempty_worker_steps s p Hws Hp).
    destruct p; [discriminate Hne | discriminate].
  - assert (Hmove : e <> SemWait ->
                    exists s', step exact terms MainThread s = Some s').
    { intros He. cbn [step]. rewrite Emain.
      destruct e; cbn [effect]; try (eexists; reflexivity).
      contradiction. }
    destruct e; try (destruct Hmove as [s' Hs']; [discriminate|];
                     exists MainThread, s'; exact Hs').
    destruct (0 <? sem s) eqn:Epos.
    + exists MainThread. cbn [step]. rewrite Emain. cbn [effect sem].
      rewrite Epos. eexists. reflexivity.
    + apply Z.ltb_ge in Epos. cbn [pending] in Hcount.
      destruct (filter_nonempty_witness holds_slot (workers s))
        as (p & Hp & Hslot); [unfold slots_held in Hcount; lia|].
      apply (nonempty_worker_steps s p Hws Hp).
      intros ->. discriminate Hslot.
Qed.

Lemma invariant_finished (s : mstate) :
  invariant limit s -> finished s = true ->
  sem s = limit /\ slots_held s = 0%nat /\ handles_open s = 0%nat.
Proof.
  intros [Hsem Hcount Hmain Hws] Hfin.
  destruct (finished_workers s Hfin) as [Hm Hall].
  rewrite Hm in Hcount. cbn [pending] in Hcount.
  pose proof (fun h Hh => all_empty_filter h (workers s) Hall Hh) as Hnone.
  unfold slots_held, handles_open in *.
  rewrite (Hnone holds_slot eq_refl) in *.
  rewrite (Hnone holds_handle eq_refl). cbn [Datatypes.length] in *.
  repeat split; lia.
Qed.

Lemma invariant_completes (k : nat) :
  1 <= limit ->
  forall s, remaining exact terms s = k -> invariant limit s ->
  exists more s',
    run exact terms more s = Some s' /\ finished s' = true /\
    invariant limit s'.
Proof.
  intros Hlimit. induction k as [k IH] using (well_founded_induction Wf_nat.lt_wf).
  intros s Hk Hinv. destruct (finished s) eqn:Hfin.
  - exists [], s. auto.
  - destruct (invariant_progress s Hlimit Hinv Hfin) as (t & s1 & Hstep).
    pose proof (step_remaining _ _ _ _ _ Hstep) as Hrem.
    pose proof (step_invariant _ _ _ _ _ _ Hstep Hinv) as Hinv1.
    destruct (IH (remaining exact terms s1)) with (s := s1)
      as (more & s' & Hrun & Hf & Hi); [lia | reflexivity | exact Hinv1|].
    exists (t :: more), s'. cbn [run]. rewrite Hstep. auto.
Qed.



End CompletionFacts.

(** X9 -- With at least one slot the program cannot get stuck: in every state a
    run can reach, either nothing is left to do or some thread can
    perform its next event (when the walk waits for a slot, a searcher
    that has not posted yet is there to go on). *)
Theorem no_deadlock
        (exact : bool) (terms : list cstring) (limit : Z)
        (path : cstring) (n : node) (schedule : list thread_id)
        (s : mstate) :
  1 <= limit ->
  run exact terms schedule (init limit (ls path n)) = Some s ->
  finished s = false ->
  exists t s', step exact terms t s = Some s'.
Proof.
  intros Hlimit Hrun Hfin.
  apply (invariant_progress exact terms limit s Hlimit); [|exact Hfin].
  apply (run_invariant _ _ _ _ _ _ Hrun). apply init_invariant. lia.
Qed.

Lemma no_deadlock_witness :
  exists t s',
    step false [lit "the"; lit "cat"] t
         (mkState 0 [SemWait; PthreadCreate b_txt; Closedir (lit "/root")]
            [[Stdout (lit "/root/a.txt:1:the cat sat" ++ [newline; newline]);
              Stdout (lit "/root/a.txt:1:the cat sat" ++ [newline; newline]);
              SemPost; Fclose]] [])
      = Some s'.
Proof.
  apply (no_deadlock false [lit "the"; lit "cat"] 1 (lit "/root") two_files
           (repeat MainThread 7)).
  - lia.
  - vm_compute. reflexivity.
  - reflexivity.
Defined.

(** X10 -- Whenever nothing is left to do, every slot has been given back and
    every searcher has closed its handle. *)
Theorem finished_run_restores_slots
        (exact : bool) (terms : list cstring) (limit : Z)
        (path : cstring) (n : node) (schedule : list thread_id)
        (s : mstate) :
  0 <= limit ->
  run exact terms schedule (init limit (ls path n)) = Some s ->
  finished s = true ->
  sem s = limit /\ slots_held s = 0%nat /\ handles_open s = 0%nat.
Proof.
  intros Hlimit Hrun Hfin. apply invariant_finished; [|exact Hfin].
  apply (run_invariant _ _ _ _ _ _ Hrun). apply init_invariant. exact Hlimit.
Qed.

Lemma finished_run_restores_slots_witness :
  exists s,
    run false [lit "the"; lit "cat"] serial_schedule
        (init 1 (ls (lit "/root") two_files)) = Some s /\
    sem s = 1.
Proof.
  eexists. split; [vm_compute; reflexivity|].
  refine (proj1 (finished_run_restores_slots false [lit "the"; lit "cat"] 1
                   (lit "/root") two_files serial_schedule _ _ _ _)).
  - lia.
  - vm_compute. reflexivity.
  - vm_compute. reflexivity.
Defined.

(** X11 -- With at least one slot every run can be brought to its end, however
    it was scheduled so far; the whole run then has as many steps as
    there are events, those of the walk and those of the searchers. *)
Theorem every_run_completes
        (exact : bool) (terms : list cstring) (limit : Z)
        (path : cstring) (n : node) (schedule : list thread_id)
        (s : mstate) :
  1 <= limit ->
  run exact terms schedule (init limit (ls path n)) = Some s ->
  exists more s',
    run exact terms (schedule ++ more) (init limit (ls path n)) = Some s' /\
    finished s' = true /\
    length (schedule ++ more) =
      remaining exact terms (init limit (ls path n)).
Proof.
  intros Hlimit Hrun.
  assert (Hinv : invariant limit s).
  { apply (run_invariant _ _ _ _ _ _ Hrun). apply init_invariant. lia. }
  destruct (invariant_completes exact terms limit _ Hlimit s eq_refl Hinv)
    as (more & s' & Hmore & Hfin & _).
  exists more, s'. split; [rewrite run_app, Hrun; exact Hmore|].
  split; [exact Hfin|].
  pose proof (run_remaining _ _ _ _ _ Hrun) as H1.
  pose proof (run_remaining _ _ _ _ _ Hmore) as H2.
  assert (remaining exact terms s' = 0%nat) as H0.
  { destruct (finished_workers s' Hfin) as [Hm Hall].
    unfold remaining. rewrite Hm. cbn [map list_sum fold_right].
    induction Hall as [|p ps -> _ IH]; [reflexivity | exact IH]. }
  rewrite length_app. lia.
Qed.

Lemma every_run_completes_witness :
  exists more s',
    run false [lit "the"; lit "cat"] (overlap_schedule ++ more)
        (init 1 (ls (lit "/root") two_files)) = Some s' /\
    finished s' = true.
Proof.
  destruct (every_run_completes false [lit "the"; lit "cat"] 1 (lit "/root")
              two_files overlap_schedule
              (mkState 0 [Closedir (lit "/root")]
                 [[Fclose];
                  [Stdout (lit "/root/b.txt:1:cat nap" ++ [newline; newline]);
                   SemPost; Fclose]]
                 [lit "/root/a.txt:1:the cat sat" ++ [newline; newline];
                  lit "/root/a.txt:1:the cat sat" ++ [newline; newline]]))
    as (more & s' & Hrun & Hfin & _).
  - lia.
  - vm_compute. reflexivity.
  - exists more, s'. split; assumption.
Defined.



(** ** The entry point, continued *)

Section MainMore.

Variable argv0 : cstring.
Variable num_cores : Z.

(** What the accepted options leave in the globals. *)
Lemma getopt_loop_config opts g ev g' :
  getopt_loop argv0 num_cores opts g = (ev, Continue g') ->
  g_search_dir g' =
    fold_left (fun acc c => match c with Opt_d optarg => Some optarg
                                     | _ => acc end)
              opts (g_search_dir g) /\
  g_exact g' = g_exact g || existsb is_Opt_e opts /\
  ((1 <= max_threads g <= num_cores \/ max_threads g = num_cores) ->
   1 <= max_threads g' <= num_cores \/ max_threads g' = num_cores).
Proof.
  revert g; induction opts as [|c rest IH]; intros g; cbn [getopt_loop].
  - intros [= _ <-]. cbn. rewrite orb_false_r. auto.
  - destruct c; try discriminate.
    + intros H. destruct (IH _ H) as (Hd & He & Ht).
      cbn [g_search_dir g_exact max_threads] in *. cbn [fold_left existsb is_Opt_e].
      auto.
    + intros H. destruct (IH _ H) as (Hd & He & Ht).
      cbn [g_search_dir g_exact max_threads] in *. cbn [fold_left existsb is_Opt_e].
      rewrite He, orb_true_r. auto.
    + destruct (_ || _) eqn:Erange; [discriminate|].
      intros H. destruct (IH _ H) as (Hd & He & Ht).
      cbn [g_search_dir g_exact max_threads] in *. cbn [fold_left existsb is_Opt_e].
      repeat split; auto. intros _. apply Ht. left.
      apply orb_false_iff in Erange. destruct Erange as [E1 E2].
      apply Z.ltb_ge in E1. rewrite Z.gtb_ltb in E2. apply Z.ltb_ge in E2.
      lia.
Qed.

Lemma getopt_loop_stop opts g ev st :
  getopt_loop argv0 num_cores opts g = (ev, Stop st) ->
  (st = Return 0 \/ st = Return 1 \/ st = Abort) /\
  forall e, In e ev -> exists r, e = Stdout r \/ e = Stderr r.
Proof.
  revert g; induction opts as [|c rest IH]; intros g; cbn [getopt_loop];
    [discriminate|].
  destruct c; try apply IH.
  - intros [= <- <-]. split; [auto|]. unfold print_usage.
    intros e He. repeat (destruct He as [<-|He]; [eauto|]). destruct He.
  - destruct (_ || _); [|apply IH].
    intros [= <- <-]. split; [auto|].
    intros e [<-|[]]. eauto.
  - intros [= <- <-]. split; [auto|].
    intros e [<-|[]]. eauto.
Qed.

End MainMore.

(** X13 -- Whenever the walk is started, the semaphore has been initialised
    first, and its value is between 1 and the number of processors. *)
Theorem walk_starts_with_valid_limit
        (argv0 : cstring) (num_cores : Z) (opts : list getopt_result)
        (cwd : cstring) (fs : cstring -> node) (trace : list event) :
  1 <= num_cores ->
  main argv0 num_cores opts cwd fs = (trace, PthreadExit) ->
  exists limit rest,
    trace = SemInit limit :: rest /\ 1 <= limit <= num_cores.
Proof.
  intros Hcores. unfold main.
  destruct (getopt_loop argv0 num_cores opts (mkConfig None false num_cores))
    as [ev [g|st]] eqn:E.
  - rewrite (getopt_loop_continue _ _ _ _ _ _ E). intros [= <-].
    destruct (getopt_loop_config _ _ _ _ _ _ E) as (_ & _ & Ht).
    cbn [max_threads] in Ht. eexists _, _. split; [reflexivity|].
    destruct Ht as [Ht|Ht]; [auto | lia | lia].
  - intros [= _ ->].
    destruct (getopt_loop_stop _ _ _ _ _ _ E) as ([H|[H|H]] & _);
      discriminate H.
Qed.

Lemma walk_starts_with_valid_limit_witness :
  exists limit rest,
    [SemInit 3; Stdout (lit "dir is: /root" ++ [newline]);
     Opendir (lit "/root"); Closedir (lit "/root")]
      = SemInit limit :: rest /\ 1 <= limit <= 4.
Proof.
  apply (walk_starts_with_valid_limit (lit "prep") 4 [Opt_t (lit "3")]
           (lit "/root") empty_root).
  - lia.
  - vm_compute. reflexivity.
Defined.

(** X14 -- When the options end the program (usage, an option [getopt] rejects,
    a thread count out of range), it has only printed: the semaphore is
    not initialised and no directory or file is touched. *)
Theorem rejected_options_touch_nothing
        (argv0 : cstring) (num_cores : Z) (opts : list getopt_result)
        (cwd : cstring) (fs : cstring -> node) (trace : list event)
        (st : status) :
  main argv0 num_cores opts cwd fs = (trace, st) ->
  st <> PthreadExit ->
  (st = Return 0 \/ st = Return 1 \/ st = Abort) /\
  forall e, In e trace -> exists r, e = Stdout r \/ e = Stderr r.
Proof.
  unfold main.
  destruct (getopt_loop argv0 num_cores opts (mkConfig None false num_cores))
    as [ev [g|st']] eqn:E.
  - intros [= _ <-] H. contradiction H. reflexivity.
  - intros [= <- <-] _. apply (getopt_loop_stop _ _ _ _ _ _ E).
Qed.

Lemma rejected_options_touch_nothing_witness :
  Return 1 = Return 0 \/ Return 1 = Return 1 \/ Return 1 = Abort.
Proof.
  refine (proj1 (rejected_options_touch_nothing (lit "prep") 4
                   [Opt_e; Opt_question "x"; Opt_t (lit "0")]
                   (lit "/root") empty_root
                   [Stderr (lit "Unknown option `-x'." ++ [newline])]
                   (Return 1) _ _)).
  - vm_compute. reflexivity.
  - discriminate.
Defined.

(** X15 -- The start directory is the argument of the last [-d], or the current
    directory when there is none; [-e] anywhere among the options selects
    the exact comparison. *)
Theorem last_directory_option_wins
        (argv0 : cstring) (num_cores : Z) (opts : list getopt_result)
        (cwd : cstring) (fs : cstring -> node) (g : config) :
  snd (getopt_loop argv0 num_cores opts (mkConfig None false num_cores))
    = Continue g ->
  let dir := match last_dir opts with
             | None => cwd
             | Some d => d
             end in
  main argv0 num_cores opts cwd fs
    = ([SemInit (max_threads g); Stdout (lit "dir is: " ++ dir ++ [newline])]
         ++ ls dir (fs dir),
       PthreadExit) /\
  g_exact g = existsb is_Opt_e opts.
Proof.
  intros Hloop dir. unfold main.
  destruct (getopt_loop argv0 num_cores opts (mkConfig None false num_cores))
    as [ev res] eqn:E.
  cbn [snd] in Hloop. subst res.
  rewrite (getopt_loop_continue _ _ _ _ _ _ E).
  destruct (getopt_loop_config _ _ _ _ _ _ E) as (Hd & He & _).
  cbn [g_search_dir g_exact] in Hd, He. unfold dir, last_dir.
  rewrite Hd. split; [reflexivity | exact He].
Qed.

Lemma last_directory_option_wins_witness :
  main (lit "prep") 4 [Opt_d (lit "/tmp"); Opt_e; Opt_d (lit "/root")]
       (lit "/home") empty_root
    = ([SemInit 4; Stdout (lit "dir is: /root" ++ [newline])]
         ++ ls (lit "/root") (empty_root (lit "/root")),
       PthreadExit).
Proof.
  refine (proj1 (last_directory_option_wins (lit "prep") 4
                   [Opt_d (lit "/tmp"); Opt_e; Opt_d (lit "/root")]
                   (lit "/home") empty_root
                   (mkConfig (Some (lit "/root")) true 4) _)).
  vm_compute. reflexivity.
Defined.

(** ** Reading back a printed number *)

Lemma digits_string_of_uint (d : Decimal.uint) (acc : Z) :
  digits (lit (DecimalString.NilEmpty.string_of_uint d)) acc
  = uint_value d acc.
Proof.
  revert acc; induction d; intros acc; cbn [uint_value];
    try (rewrite <- IHd); reflexivity.
Qed.

Lemma uint_value_acc (d : Decimal.uint) (acc : positive) :
  uint_value d (Z.pos acc) = Z.pos (Pos.of_uint_acc d acc).
Proof.
  revert acc; induction d; intros acc; cbn [uint_value Pos.of_uint_acc];
    [reflexivity|..];
    match goal with
    | |- uint_value _ ?z = _ =>
        match goal with
        | |- _ = Z.pos (Pos.of_uint_acc _ ?p) =>
            replace z with (Z.pos p) by lia
        end
    end; apply IHd.
Qed.

Lemma uint_value_0 (d : Decimal.uint) :
  uint_value d 0 = Z.of_N (Pos.of_uint d).
Proof.
  induction d; cbn [uint_value Pos.of_uint]; try reflexivity;
    try exact IHd;
    match goal with
    | |- uint_value _ ?z = Z.of_N (N.pos (Pos.of_uint_acc _ ?p)) =>
        change z with (Z.pos p); apply uint_value_acc
    end.
Qed.

Lemma string_of_uint_nonnil (d : Decimal.uint) :
  d <> Decimal.Nil ->
  DecimalString.NilZero.string_of_uint d
  = DecimalString.NilEmpty.string_of_uint d.
Proof. destruct d; [contradiction | reflexivity..]. Qed.

(** A string that starts with a digit is read from its first byte. *)
Lemma strtol_digits (c : ascii) (r : cstring) (v : Z) :
  digit c = Some v ->
  strtol (c :: r) = Z.max LONG_MIN (Z.min LONG_MAX (digits (c :: r) 0)).
Proof.
  intros Hd.
  destruct c as [[|] [|] [|] [|] [|] [|] [|] [|]];
    try (vm_compute in Hd; discriminate Hd); reflexivity.
Qed.

Lemma string_of_uint_head (d : Decimal.uint) :
  d <> Decimal.Nil ->
  exists c r v,
    lit (DecimalString.NilEmpty.string_of_uint d) = c :: r /\
    digit c = Some v.
Proof.
  destruct d; [contradiction|..]; intros _;
    eexists _, _, _; split; reflexivity.
Qed.

Lemma strtol_uint (d : Decimal.uint) :
  d <> Decimal.Nil ->
  strtol (lit (DecimalString.NilEmpty.string_of_uint d))
  = Z.max LONG_MIN (Z.min LONG_MAX (Z.of_N (Pos.of_uint d))).
Proof.
  intros Hd. destruct (string_of_uint_head d Hd) as (c & r & v & Hs & Hc).
  rewrite <- uint_value_0, <- digits_string_of_uint, Hs.
  apply (strtol_digits c r v Hc).
Qed.

Lemma strtol_minus (r : cstring) :
  strtol ("-"%char :: r)
  = Z.max LONG_MIN (Z.min LONG_MAX (- digits r 0)).
Proof. reflexivity. Qed.

(** [atoi] reads back what [printf "%d"] prints. *)
Lemma atoi_fmt_d (z : Z) :
  - 2 ^ 31 <= z < 2 ^ 31 -> atoi (fmt_d z) = z.
Proof.
  intros Hz. unfold atoi, fmt_d.
  destruct z as [|p|p]; [reflexivity|..];
    cbn [Z.to_int DecimalString.NilZero.string_of_int];
    rewrite string_of_uint_nonnil by apply DecimalPos.Unsigned.to_uint_nonnil.
  - rewrite strtol_uint by apply DecimalPos.Unsigned.to_uint_nonnil.
    rewrite DecimalPos.Unsigned.of_to. cbn [Z.of_N].
    unfold LONG_MAX, LONG_MIN. rewrite Z.min_r, Z.max_r by lia.
    apply int_wrap_small. lia.
  - assert (Hdig : digits (lit (DecimalString.NilEmpty.string_of_uint
                                  (Pos.to_uint p))) 0 = Z.pos p).
    { rewrite digits_string_of_uint, uint_value_0, DecimalPos.Unsigned.of_to.
      reflexivity. }
    change (lit (String "-" (DecimalString.NilEmpty.string_of_uint
                               (Pos.to_uint p))))
      with ("-"%char :: lit (DecimalString.NilEmpty.string_of_uint
                              (Pos.to_uint p))).
    rewrite strtol_minus, Hdig.
    unfold LONG_MAX, LONG_MIN. rewrite Z.min_r, Z.max_r by lia.
    apply int_wrap_small. lia.
Qed.

(** X16 -- A thread count between 1 and the number of processors, written in
    decimal, is accepted: given as the last option it becomes the initial
    value of the semaphore, and the walk starts. *)
Theorem valid_thread_count_accepted
        (argv0 : cstring) (num_cores : Z) (pre : list getopt_result)
        (k : Z) (cwd : cstring) (fs : cstring -> node) (g : config) :
  snd (getopt_loop argv0 num_cores pre (mkConfig None false num_cores))
    = Continue g ->
  1 <= k <= num_cores -> num_cores < 2 ^ 31 ->
  let dir := match g_search_dir g with
             | None => cwd
             | Some d => d
             end in
  main argv0 num_cores (pre ++ [Opt_t (fmt_d k)]) cwd fs
    = ([SemInit k; Stdout (lit "dir is: " ++ dir ++ [newline])]
         ++ ls dir (fs dir),
       PthreadExit).
Proof.
  intros Hloop Hk Hcores dir. unfold main.
  rewrite (getopt_loop_app _ _ _ _ _ _ Hloop). cbn [getopt_loop].
  rewrite atoi_fmt_d by lia.
  assert ((k <? 1) || (k >? num_cores) = false) as ->.
  { apply orb_false_iff. rewrite Z.ltb_ge, Z.gtb_ltb, Z.ltb_ge. lia. }
  reflexivity.
Qed.

Lemma valid_thread_count_accepted_witness :
  main (lit "prep") 4 ([Opt_e] ++ [Opt_t (fmt_d 2)]) (lit "/root") empty_root
    = ([SemInit 2; Stdout (lit "dir is: /root" ++ [newline])]
         ++ ls (lit "/root") (empty_root (lit "/root")),
       PthreadExit).
Proof.
  apply (valid_thread_count_accepted (lit "prep") 4 [Opt_e] 2 (lit "/root")
           empty_root (mkConfig None true 4)).
  - vm_compute. reflexivity.
  - lia.
  - lia.
Defined.

(** ** The matcher, continued *)

(** X17 -- A turn of the loop writes its record once for every word of the line
    that compares equal to a term: as many records as matching words. *)
Theorem one_record_per_matching_word
        (exact : bool) (terms : list cstring) (ptest : option cstring)
        (stream : list ascii) (it : iteration) :
  In it (file_loop exact terms ptest stream 0 false) ->
  it_out it =
  repeat (Stdout (match_record ptest (it_num it) (c_str (it_buf it))))
         (length (filter (word_matches exact terms)
                         (words (c_str (it_buf it))))).
Proof.
  intros Hit. apply In_nth_error in Hit. destruct Hit as [k Hk].
  destruct (file_loop_nth _ _ _ _ _ _ _ Hk) as (_ & _ & _ & _ & _ & Hout).
  rewrite Hout, word_loop_writes.
  induction (filter _ _) as [|w ws IH]; [reflexivity|].
  cbn [map Datatypes.length repeat]. rewrite IH. reflexivity.
Qed.

Lemma one_record_per_matching_word_witness :
  let it := mkIteration 1 (lit "the cat sat" ++ [newline])
              (repeat (Stdout (lit "/root/a.txt:1:the cat sat"
                                 ++ [newline; newline])) 2) in
  it_out it =
  repeat (Stdout (match_record (recover_filename a_txt) (it_num it)
                    (c_str (it_buf it))))
         (length (filter (word_matches false [lit "the"; lit "cat"])
                         (words (c_str (it_buf it))))).
Proof.
  apply (one_record_per_matching_word false [lit "the"; lit "cat"]
           (recover_filename a_txt) (f_stream a_txt)).
  vm_compute. right. left. reflexivity.
Defined.

(** X18 -- The words [strtok_r] delivers for a line are exactly the runs of the
    line that are not empty, hold no delimiter, start at the beginning of
    the line or after a delimiter and end at the end of the line or
    before a delimiter. *)
Theorem words_are_bounded_runs (line w : cstring) :
  In w (words line) <->
  exists pre post,
    line = pre ++ w ++ post /\
    bounded true pre = true /\
    boundary_after post = true /\
    w <> [] /\
    Forall (fun c => in_set delimit c = false) w.
Proof.
  split; [apply words_occurrence|].
  intros (pre & post & -> & Hb & Ha & Hne & Hw).
  apply words_intro; assumption.
Qed.

Lemma strtok_r_delims (s : cstring) :
  Forall (fun c => in_set delimit c = true) s -> strtok_r s delimit = None.
Proof.
  intros Hall. unfold strtok_r.
  rewrite <- (app_nil_r s) at 1 2.
  rewrite strspn_app by (auto; exact I).
  rewrite app_nil_r, skipn_all. reflexivity.
Qed.

(** X20 -- A line made of delimiters only (an empty line, a line of blanks or
    punctuation) has no words and is never reported, whatever the
    terms. *)
Theorem delimiter_only_line_not_reported
        (exact : bool) (terms : list cstring) (ptest : option cstring)
        (stream : list ascii) (it : iteration) :
  In it (file_loop exact terms ptest stream 0 false) ->
  forallb (in_set delimit) (c_str (it_buf it)) = true ->
  words (c_str (it_buf it)) = [] /\ it_out it = [].
Proof.
  intros Hit Hall.
  assert (Hw : words (c_str (it_buf it)) = []).
  { rewrite words_eq, strtok_r_delims; [reflexivity|].
    apply Forall_forall. apply forallb_forall. exact Hall. }
  split; [exact Hw|].
  apply In_nth_error in Hit. destruct Hit as [k Hk].
  destruct (file_loop_nth _ _ _ _ _ _ _ Hk) as (_ & _ & _ & _ & _ & Hout).
  rewrite Hout, word_loop_writes, Hw. reflexivity.
Qed.

Lemma delimiter_only_line_not_reported_witness :
  let it := mkIteration 1 (lit " -- ..." ++ [newline]) [] in
  words (c_str (it_buf it)) = [] /\ it_out it = [].
Proof.
  apply (delimiter_only_line_not_reported false [lit "the"; []] None
           (lit "the" ++ [newline] ++ lit " -- ..." ++ [newline])).
  - vm_compute. right. left. reflexivity.
  - vm_compute. reflexivity.
Defined.

Lemma whole_word_line_reported_witness :
  let it := mkIteration 1 (lit "cat nap" ++ [newline])
              [Stdout (lit "/root/b.txt:1:cat nap" ++ [newline; newline])] in
  it_out it <> [].
Proof.
  apply (whole_word_line_reported false [lit "the"; lit "cat"]
           (recover_filename b_txt) (f_stream b_txt) _ (lit "cat")).
  - vm_compute. right. left. reflexivity.
  - right. left. reflexivity.
  - discriminate.
  - repeat constructor; discriminate.
  - repeat constructor.
  - vm_compute. reflexivity.
Defined.

(** ** The threads and the semaphore: bounds *)

(** X21 -- The semaphore stays between 0 and its initial value, and a searcher
    never has to wait: in every state a run can reach, each searcher that
    is not done can perform its next event. *)
Theorem searchers_never_wait
        (exact : bool) (terms : list cstring) (limit : Z)
        (path : cstring) (n : node) (schedule : list thread_id)
        (s : mstate) :
  0 <= limit ->
  run exact terms schedule (init limit (ls path n)) = Some s ->
  0 <= sem s <= limit /\
  forall i e prog,
    nth_error (workers s) i = Some (e :: prog) ->
    exists s', step exact terms (Worker i) s = Some s'.
Proof.
  intros Hlimit Hrun.
  pose proof (run_invariant _ _ _ _ _ _ Hrun
                (init_invariant limit path n Hlimit))
    as [Hsem Hcount Hmain Hws].
  split.
  - assert (0 <= pending (main_thread s))
      by (unfold pending; destruct (main_thread s) as [|[] ?]; lia).
    lia.
  - intros i e prog Hi. apply (worker_can_step exact terms s i e prog Hi).
    exact (proj1 (Forall_forall _ _) Hws _ (nth_error_In _ _ Hi)).
Qed.

Lemma searchers_never_wait_witness :
  exists s,
    run false [lit "the"; lit "cat"] overlap_schedule
        (init 1 (ls (lit "/root") two_files)) = Some s /\
    0 <= sem s <= 1.
Proof.
  eexists. split; [vm_compute; reflexivity|].
  refine (proj1 (searchers_never_wait false [lit "the"; lit "cat"] 1
                   (lit "/root") two_files overlap_schedule _ _ _)).
  - lia.
  - vm_compute. reflexivity.
Defined.
